(** * Baseline schedule generation: first-fit bin packing by generations

    A shallow embedding of [data/benchmark/generate_baseline_schedules.py]:
    the packer [generate_baseline_schedule] with its local helper
    [find_fitting_bin], and the hand-over to the makespan evaluation in
    [_calculate_result_from_baseline].

    Python integers are [Z] (capacities, qubit counts) or [nat] (positions
    and the generation counter, which only ever count up from 0).  The
    [accelerators] dict is an association list in insertion order: the code
    only iterates over [values()] and [keys()].  The time matrices are the
    nested lists the function is given; floats are an abstract type of
    times.  Exceptions are an explicit [result] type. *)

From Stdlib Require Import ZArith Lia.
From stdpp Require Import base list strings pretty sorting gmap.

Local Open Scope Z_scope.

(** ** Data model *)

(** The only attribute of a qiskit [QuantumCircuit] the packer reads. *)
Record QuantumCircuit := mkCircuit { num_qubits : Z }.

(** Modelled from the spec: [types.py] is not among the sources.  A job
    is its identifier and its circuit, as [JobHelper(str(idx + 1), job)],
    [job.name] and [job.instance] use it; the circuit may be [None]. *)
Record JobHelper := mkJob {
  name : string;
  instance : option QuantumCircuit
}.

(** Modelled from the spec: [types.py] is not among the sources.  A bin is
    a generation index, a machine reference, the remaining capacity, the
    ordered list of the assigned jobs and a full flag: [capacity] is the
    capacity still free, [index] the generation, [qpu] the position of the
    machine; [Bin(index=.., capacity=.., qpu=..)] starts with no jobs and
    not full. *)
Record Bin := mkBin {
  capacity : Z;
  full : bool;
  index : nat;
  jobs : list JobHelper;
  qpu : nat
}.

(** The numbers of the time matrices are Python floats; the packer and the
    evaluation only need zero, sum, maximum and the embedding of integers
    ([start_time=_bin.index], [completion_time=-1.0]). *)
Class Time (T : Type) := {
  t_zero : T;
  t_add : T → T → T;
  t_max : T → T → T;
  t_of_Z : Z → T
}.

#[global] Instance Z_Time : Time Z :=
  {| t_zero := 0; t_add := Z.add; t_max := Z.max; t_of_Z := id |}.

(** Modelled from the spec: [types.py] is not among the sources.  A
    scheduled job record is the job identifier, the machine identifier, the
    start time and the completion time, as
    [JobResultInfo(name=.., machine=.., start_time=.., completion_time=..)]
    builds it. *)
Record JobResultInfo (T : Type) := mkInfo {
  info_name : string;
  machine : string;
  start_time : T;
  completion_time : T
}.
Arguments mkInfo {T} _ _ _ _.
Arguments info_name {T} _.
Arguments machine {T} _.
Arguments start_time {T} _.
Arguments completion_time {T} _.

(** The state of the loop over [new_jobs]. *)
Record PackState := mkState {
  open_bins : list Bin;
  closed_bins : list Bin;
  next_index : nat
}.

(** ** Exceptions *)

Inductive error := AssertionError | IndexError.

Inductive result (A : Type) :=
  | Ok (a : A)
  | Raise (e : error).
Arguments Ok {A} _.
Arguments Raise {A} _.

#[global] Instance result_ret : MRet result := λ A a, Ok a.

#[global] Instance result_bind : MBind result := λ A B f m,
  match m with
  | Ok a => f a
  | Raise e => Raise e
  end.

(** ** The packer *)

(** The [accelerators] dict: machine names and capacities, in order. *)
Definition accelerators_t := list (string * Z).

(** [job.instance.num_qubits], read as 0 where there is no circuit. *)
Definition job_qubits (job : JobHelper) : Z :=
  from_option num_qubits 0 (instance job).

Definition sumZ {A} (f : A → Z) (l : list A) : Z :=
  foldr (λ x acc, f x + acc) 0 l.

(** Qubits of the jobs of a bin. *)
Definition bin_load (b : Bin) : Z := sumZ job_qubits (jobs b).

(** Qubits of a machine that are taken or free in a bin. *)
Definition weight (b : Bin) : Z := capacity b + bin_load b.

(** The sum of the capacities of the machines. *)
Definition total_capacity (accelerators : accelerators_t) : Z :=
  sumZ id (accelerators.*2).

(** The qubits of all the bins of a state, taken or free. *)
Definition total_weight (st : PackState) : Z :=
  sumZ weight (closed_bins st) + sumZ weight (open_bins st).

(** The sum of the qubits of the jobs that have a circuit. *)
Definition total_demand (js : list (option QuantumCircuit)) : Z :=
  sumZ (from_option num_qubits 0) js.

Section packer.
Variable accelerators : accelerators_t.

(** [find_fitting_bin]: the caller has checked that [job.instance] is not
    [None], so the job comes in as its circuit. *)
Fixpoint find_fitting_bin (inst : QuantumCircuit) (bins : list Bin)
    : option nat :=
  match bins with
  | [] => None
  | b :: bins' =>
      if bool_decide (capacity b >= num_qubits inst) then Some 0%nat
      else S <$> find_fitting_bin inst bins'
  end.

(** [[JobHelper(str(idx + 1), job) for idx, job in enumerate(jobs)]] *)
Definition new_jobs (js : list (option QuantumCircuit)) : list JobHelper :=
  imap (λ idx job, mkJob (pretty (idx + 1)%nat) job) js.

(** [[Bin(index=index, capacity=qpu, qpu=idx)
      for idx, qpu in enumerate(accelerators.values())]] *)
Definition fresh_bins (gen : nat) : list Bin :=
  imap (λ idx cap, mkBin cap false gen [] idx) (accelerators.*2).

Definition initial_state : PackState := mkState (fresh_bins 0) [] 1.

(** Lines 52-53: [selected_bin.jobs.append(job)] and
    [selected_bin.capacity -= job.instance.num_qubits]. *)
Definition put (job : JobHelper) (inst : QuantumCircuit) (b : Bin) : Bin :=
  mkBin (capacity b - num_qubits inst) (full b) (index b)
        (jobs b ++ [job]) (qpu b).

(** Line 57: [selected_bin.full = True]. *)
Definition set_full (b : Bin) : Bin :=
  mkBin (capacity b) true (index b) (jobs b) (qpu b).

(** Lines 50-59: add the job to [open_bins[bin_idx]] and close the bin
    when it is full. *)
Definition add_job (job : JobHelper) (inst : QuantumCircuit)
    (bin_idx : nat) (opn cls : list Bin) (gen : nat) : result PackState :=
  match opn !! bin_idx with
  | None => Raise IndexError
  | Some b =>
      let selected_bin := put job inst b in
      if bool_decide (capacity selected_bin = 0) then
        Ok (mkState (delete bin_idx opn) (cls ++ [set_full selected_bin]) gen)
      else
        Ok (mkState (<[bin_idx := selected_bin]> opn) cls gen)
  end.

(** One iteration of the loop for a job with a circuit (lines 33-59). *)
Definition assign (job : JobHelper) (inst : QuantumCircuit)
    (st : PackState) : result PackState :=
  match find_fitting_bin inst (open_bins st) with
  | Some bin_idx =>
      add_job job inst bin_idx (open_bins st) (closed_bins st) (next_index st)
  | None =>
      let new_bins := fresh_bins (next_index st) in
      match find_fitting_bin inst new_bins with
      | None => Raise AssertionError
      | Some bin_idx =>
          add_job job inst (bin_idx + length (open_bins st))
                  (open_bins st ++ new_bins) (closed_bins st)
                  (S (next_index st))
      end
  end.

(** The loop [for job in new_jobs] (lines 30-59). *)
Fixpoint pack_loop (js : list JobHelper) (st : PackState)
    : result PackState :=
  match js with
  | [] => Ok st
  | job :: js' =>
      match instance job with
      | None => pack_loop js' st
      | Some inst => st' ← assign job inst st; pack_loop js' st'
      end
  end.

(** Lines 61-64: the closed bins, then the open bins that hold a job. *)
Definition close_all (st : PackState) : list Bin :=
  closed_bins st ++ filter (λ b, (0 < length (jobs b))%nat) (open_bins st).

(** [sorted(closed_bins, key=lambda x: x.index)]: Python's sort is
    stable, as is insertion from the right that stops before the first
    element whose key is not smaller. *)
Fixpoint insert_by_index (b : Bin) (l : list Bin) : list Bin :=
  match l with
  | [] => [b]
  | x :: l' =>
      if bool_decide (index b ≤ index x)%nat then b :: x :: l'
      else x :: insert_by_index b l'
  end.

Definition sorted_by_index (l : list Bin) : list Bin :=
  foldr insert_by_index [] l.

(** The bins the schedule is built from (the iterable of line 68). *)
Definition schedule_bins (js : list (option QuantumCircuit))
    : result (list Bin) :=
  st ← pack_loop (new_jobs js) initial_state;
  Ok (sorted_by_index (close_all st)).

(** Lines 66-78. *)
Definition bin_records `{Time T} (b : Bin) : result (list (JobResultInfo T)) :=
  match accelerators.*1 !! qpu b with
  | None => match jobs b with [] => Ok [] | _ => Raise IndexError end
  | Some m =>
      Ok ((λ job, mkInfo (name job) m (t_of_Z (Z.of_nat (index b)))
                         (t_of_Z (-1))) <$> jobs b)
  end.

Fixpoint combined_jobs `{Time T} (bins : list Bin)
    : result (list (JobResultInfo T)) :=
  match bins with
  | [] => Ok []
  | b :: bins' =>
      rs ← bin_records b;
      rest ← combined_jobs bins';
      Ok (rs ++ rest)
  end.
End packer.

(** ** The time dictionaries *)

(** Line 92: [["0"] + [str(idx + 1) for idx, _ in enumerate(base_jobs)]]. *)
Definition lp_jobs (base_jobs : list (option QuantumCircuit)) : list string :=
  "0"%string :: imap (λ idx _, pretty (idx + 1)%nat) base_jobs.

(** Line 93: [list(accelerators.keys())]. *)
Definition machines (accelerators : accelerators_t) : list string :=
  accelerators.*1.

(** [pulp.makeDict(headers, array, 0)] is library code, not among the
    sources; the definitions below follow the library's function, which
    recurses over the list of header lists. *)

(** The last list of headers: [dict(zip(headers[0], array))], entered from
    left to right.  [zip] stops at the shorter list: a header beyond the
    end of [array] gets no entry and a value beyond the headers is left
    out. *)
Definition makeDict1 {V : Type} (headers : list string) (array : list V)
    : gmap string V :=
  foldl (λ d kv, <[kv.1 := kv.2]> d) ∅ (zip headers array).

(** A list of headers before the last:
    [for i, h in enumerate(headers[0]): result[h] = makeDict(headers[1:],
    array[i])], from position [i] on.  [array[i]] raises for a header
    beyond the end of [array]; [sub] is the function for the remaining
    headers. *)
Fixpoint makeDict_level {A V : Type} (sub : A → result V) (i : nat)
    (headers : list string) (array : list A) (d : gmap string V)
    : result (gmap string V) :=
  match headers with
  | [] => Ok d
  | h :: headers' =>
      match array !! i with
      | None => Raise IndexError
      | Some row =>
          v ← sub row;
          makeDict_level sub (S i) headers' array (<[h := v]> d)
      end
  end.

(** [pulp.makeDict([h0, h1], array, 0)] *)
Definition makeDict2 {V : Type} (h0 h1 : list string)
    (array : list (list V)) : result (gmap string (gmap string V)) :=
  makeDict_level (λ row, Ok (makeDict1 h1 row)) 0 h0 array ∅.

(** [pulp.makeDict([h0, h1, h2], array, 0)] *)
Definition makeDict3 {V : Type} (h0 h1 h2 : list string)
    (array : list (list (list V)))
    : result (gmap string (gmap string (gmap string V))) :=
  makeDict_level (makeDict2 h1 h2) 0 h0 array ∅.

(** ** The makespan evaluation *)

Section makespan.
Context `{Time T}.

(** [p_times[job][machine]]: with the default [0] the dictionaries of
    [pulp.makeDict] are [defaultdict]s at every level, and a key without an
    entry reads as zero. *)
Definition p_time (p_times : gmap string (gmap string T)) (job m : string)
    : T :=
  default t_zero (p_times !! job ≫= λ row, row !! m).

(** [s_times[pred][succ][machine]], with the same defaults. *)
Definition s_time (s_times : gmap string (gmap string (gmap string T)))
    (pred succ m : string) : T :=
  default t_zero (s_times !! pred ≫= λ d, d !! succ ≫= λ row, row !! m).

(** Modelled from the spec: part of [calculate_makespan], which is not
    among the sources.  The last job of each machine and its finish time; a
    machine without an entry is at the synthetic start: predecessor ["0"],
    time zero. *)
Definition last_on (last : gmap string (string * T)) (m : string)
    : string * T :=
  default ("0"%string, t_zero) (last !! m).

(** Modelled from the spec: the finish-time recurrence of
    [calculate_makespan], which is not among the sources.  On each machine
    the jobs run in the order of the records; a job finishes at its
    predecessor's finish time plus the setup time for (predecessor, job,
    machine) plus the processing time for (job, machine).  The records get
    their completion times. *)
Fixpoint run_records (p_times : gmap string (gmap string T))
    (s_times : gmap string (gmap string (gmap string T)))
    (last : gmap string (string * T)) (rs : list (JobResultInfo T))
    : gmap string (string * T) * list (JobResultInfo T) :=
  match rs with
  | [] => (last, [])
  | r :: rs' =>
      let m := machine r in
      let '(pred, t) := last_on last m in
      let finish :=
        t_add (t_add t (s_time s_times pred (info_name r) m))
              (p_time p_times (info_name r) m) in
      let '(last', out) :=
        run_records p_times s_times
                    (<[m := (info_name r, finish)]> last) rs' in
      (last', mkInfo (info_name r) m (start_time r) finish :: out)
  end.

(** Modelled from the spec: [calculate_makespan] of
    [generate_milp_schedules.py] is not among the sources.  The makespan is
    the largest finish time over the machines that have a job, zero
    without jobs. *)
Definition calculate_makespan (rs : list (JobResultInfo T))
    (p_times : gmap string (gmap string T))
    (s_times : gmap string (gmap string (gmap string T)))
    : T * list (JobResultInfo T) :=
  let '(last, out) := run_records p_times s_times ∅ rs in
  (foldr (λ m acc, t_max (last_on last m).2 acc) t_zero
         (remove_dups (machine <$> rs)),
   out).

(** [_calculate_result_from_baseline]: the keys, the dictionary of the
    process times, the dictionary of the setup times, then the
    evaluation. *)
Definition calculate_result_from_baseline (rs : list (JobResultInfo T))
    (process_times : list (list T)) (setup_times : list (list (list T)))
    (base_jobs : list (option QuantumCircuit))
    (accelerators : accelerators_t)
    : result (T * list (JobResultInfo T)) :=
  let lp_jobs := lp_jobs base_jobs in
  let machines := machines accelerators in
  p_times ← makeDict2 (tail lp_jobs) machines process_times;
  s_times ← makeDict3 lp_jobs lp_jobs machines setup_times;
  Ok (calculate_makespan rs p_times s_times).

Definition generate_baseline_schedule (js : list (option QuantumCircuit))
    (accelerators : accelerators_t) (process_times : list (list T))
    (setup_times : list (list (list T)))
    : result (T * list (JobResultInfo T)) :=
  bins ← schedule_bins accelerators js;
  rs ← combined_jobs accelerators bins;
  calculate_result_from_baseline rs process_times setup_times js
                                 accelerators.
End makespan.

(** ** Predicates on the states of the loop *)

(** A list of bins whose generation indices never decrease. *)
Definition ascending (bins : list Bin) : Prop :=
  StronglySorted le (index <$> bins).

(** The jobs of all the bins, closed and open. *)
Definition all_jobs (st : PackState) : list JobHelper :=
  (closed_bins st ++ open_bins st) ≫= jobs.

Definition has_instance (job : JobHelper) : Prop := is_Some (instance job).

#[global] Instance has_instance_dec (job : JobHelper)
    : Decision (has_instance job) :=
  is_Some_dec (instance job).

(** A generation with a bin that makes it into the schedule. *)
Definition generation_used (st : PackState) (g : nat) : Prop :=
  ∃ b, b ∈ close_all st ∧ index b = g.

(** The number of distinct generation indices among some bins. *)
Definition generations_used (bins : list Bin) : nat :=
  length (remove_dups (index <$> bins)).

(** The number of entries of the job list that have a circuit. *)
Definition job_count (js : list (option QuantumCircuit)) : nat :=
  length (filter has_instance (new_jobs js)).

(** Job lists for the examples: one circuit per number of qubits. *)
Definition circuits (qs : list Z) : list (option QuantumCircuit) :=
  (λ q, Some (mkCircuit q)) <$> qs.

Section predicates.
Variable accelerators : accelerators_t.

(** A job whose requirement exceeds every machine's nominal capacity. *)
Definition infeasible (inst : QuantumCircuit) : Prop :=
  Forall (λ cap, cap < num_qubits inst) (accelerators.*2).

#[global] Instance infeasible_dec (inst : QuantumCircuit)
    : Decision (infeasible inst) :=
  Forall_dec (λ cap, cap < num_qubits inst) (accelerators.*2).

(** What a successful iteration does: the job goes into the first bin
    of the open list that fits, after a generation of fresh bins was
    appended if the open list had none. *)
Inductive placement (job : JobHelper) (inst : QuantumCircuit)
    (st st' : PackState) : Prop :=
  | Placement (opened : bool) l1 b l2 :
      (if opened then open_bins st ++ fresh_bins accelerators (next_index st)
       else open_bins st) = l1 ++ b :: l2 →
      (opened = true →
       Forall (λ b', capacity b' < num_qubits inst) (open_bins st)) →
      Forall (λ b', capacity b' < num_qubits inst) l1 →
      num_qubits inst ≤ capacity b →
      st' = (let gen := if opened then S (next_index st)
                        else next_index st in
             if bool_decide (capacity b - num_qubits inst = 0)
             then mkState (l1 ++ l2)
                    (closed_bins st ++ [set_full (put job inst b)]) gen
             else mkState (l1 ++ put job inst b :: l2) (closed_bins st) gen) →
      placement job inst st st'.

(** The capacity of the machine a bin stands for. *)
Definition nominal (b : Bin) : option Z := accelerators.*2 !! qpu b.

(** The free capacity and the load of a bin add up to the capacity of
    its machine, and its generation has been opened. *)
Definition bin_wf (gen : nat) (b : Bin) : Prop :=
  nominal b = Some (capacity b + bin_load b) ∧ (index b < gen)%nat.

Definition open_ok (gen : nat) (b : Bin) : Prop :=
  bin_wf gen b ∧ full b = false ∧
  ((0 < length (jobs b))%nat → 0 < capacity b).

Definition closed_ok (gen : nat) (b : Bin) : Prop :=
  bin_wf gen b ∧ full b = true ∧ capacity b = 0 ∧
  (0 < length (jobs b))%nat.

Record Inv (st : PackState) : Prop := mkInv {
  inv_open : Forall (open_ok (next_index st)) (open_bins st);
  inv_closed : Forall (closed_ok (next_index st)) (closed_bins st);
  inv_ascending : ascending (open_bins st)
}.

(** The free capacity of a bin is at most the capacity of its machine. *)
Definition within_nominal (b : Bin) : Prop :=
  ∃ cap, nominal b = Some cap ∧ capacity b ≤ cap.
End predicates.

(** ** Slots and generations *)

(** The slot of a bin: its generation and the position of its machine. *)
Definition slot (b : Bin) : nat * nat := (index b, qpu b).

(** The generation of every job, bin after bin. *)
Definition job_generations (bins : list Bin) : list nat :=
  bins ≫= λ b, replicate (length (jobs b)) (index b).

(** ** Jobs from experiments ([src/common/experiment.py]) *)

Module Experiment.

(** The exceptions of [jobs_from_experiment]: iterating over [None] and
    indexing a list that is too short. *)
Inductive exn := TypeError | IndexError.

Inductive outcome (A : Type) :=
  | Return (a : A)
  | Throw (e : exn).
Arguments Return {A} _.
Arguments Throw {A} _.

Section experiment.
(** Circuits, coefficients [(float, WeightType)], Pauli lists, measurement
    counts and UUIDs are library values the functions only pass on. *)
Context {Circuit Coefficient Observable Counts UUID : Type}.

(** [len(circuit.cregs)] *)
Variable num_cregs : Circuit → nat.

(** The dataclass [Experiment]. *)
Record Experiment := mkExperiment {
  circuits : option (list Circuit);
  coefficients : list Coefficient;
  n_shots : Z;
  observables : Observable;
  partition_label : string;
  result_counts : option (list Counts);
  uuid : UUID
}.

(** The dataclass [CircuitJob]; the fields it shares with [Experiment]
    carry the prefix [job_]. *)
Record CircuitJob := mkCircuitJob {
  coefficient : option Coefficient;
  cregs : nat;
  index : nat;
  instance : option Circuit;
  job_n_shots : Z;
  observable : Observable;
  job_partition_label : string;
  job_result_counts : option Counts;
  job_uuid : UUID
}.

(** The fields every job of [jobs_from_experiment] takes over from the
    experiment as they are. *)
Definition copied (experiment : Experiment) (job : CircuitJob) : Prop :=
  job_n_shots job = n_shots experiment ∧
  observable job = observables experiment ∧
  job_partition_label job = partition_label experiment ∧
  job_result_counts job = None ∧
  job_uuid job = uuid experiment.

(** The list comprehension of [jobs_from_experiment] from position [idx]
    on: [experiment.coefficients[idx]] is read first and raises when the
    list is too short. *)
Fixpoint build_jobs (experiment : Experiment) (idx : nat)
    (cs : list Circuit) : outcome (list CircuitJob) :=
  match cs with
  | [] => Return []
  | circuit :: cs' =>
      match coefficients experiment !! idx with
      | None => Throw IndexError
      | Some co =>
          match build_jobs experiment (S idx) cs' with
          | Return js =>
              Return (mkCircuitJob (Some co) (num_cregs circuit) idx
                        (Some circuit) (n_shots experiment)
                        (observables experiment)
                        (partition_label experiment) None
                        (uuid experiment) :: js)
          | Throw e => Throw e
          end
      end
  end.

(** [jobs_from_experiment]: [enumerate(experiment.circuits)] raises for
    [None]. *)
Definition jobs_from_experiment (experiment : Experiment)
    : outcome (list CircuitJob) :=
  match circuits experiment with
  | None => Throw TypeError
  | Some cs => build_jobs experiment 0 cs
  end.
End experiment.

End Experiment.

(** * Properties *)

(** ** First fit *)

Section first_fit.
Variable inst : QuantumCircuit.

Lemma find_fitting_bin_None bins :
  find_fitting_bin inst bins = None ↔
  Forall (λ b, capacity b < num_qubits inst) bins.
Proof.
  induction bins as [|b bins IH]; simpl.
  - split; [constructor | done].
  - case_bool_decide as Hc.
    + split; [done |]. intros Hall. inversion Hall; subst. lia.
    + rewrite fmap_None, IH. split.
      * intros Hall. constructor; [lia | done].
      * intros Hall. by inversion Hall.
Qed.

(** The bin found is the first one that fits. *)
Lemma find_fitting_bin_Some bins i :
  find_fitting_bin inst bins = Some i →
  ∃ l1 b l2, bins = l1 ++ b :: l2 ∧ length l1 = i ∧
    num_qubits inst ≤ capacity b ∧
    Forall (λ b', capacity b' < num_qubits inst) l1.
Proof.
  revert i. induction bins as [|b bins IH]; intros i; simpl; [done |].
  case_bool_decide as Hc.
  - intros [= <-]. exists [], b, bins. repeat split; [lia | constructor].
  - destruct (find_fitting_bin inst bins) as [k|] eqn:Hk; [| done].
    intros [= <-].
    destruct (IH k eq_refl) as (l1 & b' & l2 & -> & <- & Hb & Hl).
    exists (b :: l1), b', l2. repeat split; [done |].
    constructor; [lia | done].
Qed.

(** The search only looks at the free capacities. *)
Lemma find_fitting_bin_capacities bins bins' :
  capacity <$> bins = capacity <$> bins' →
  find_fitting_bin inst bins = find_fitting_bin inst bins'.
Proof.
  revert bins'. induction bins as [|b bins IH]; intros [|b' bins']; try done.
  simpl. intros [= Hb Hrest]. rewrite Hb, (IH bins' Hrest). done.
Qed.
End first_fit.

(** ** One iteration of the loop *)

Section steps.
Variable accelerators : accelerators_t.


Lemma fresh_bins_capacity gen :
  capacity <$> fresh_bins accelerators gen = accelerators.*2.
Proof.
  apply list_eq; intros i. unfold fresh_bins.
  rewrite list_lookup_fmap, list_lookup_imap.
  by destruct (accelerators.*2 !! i).
Qed.

Lemma find_fresh_None inst gen :
  find_fitting_bin inst (fresh_bins accelerators gen) = None ↔
  infeasible accelerators inst.
Proof.
  rewrite find_fitting_bin_None. unfold infeasible.
  rewrite <- (fresh_bins_capacity gen), Forall_fmap. done.
Qed.

Lemma add_job_middle job inst l1 b l2 cls gen :
  add_job job inst (length l1) (l1 ++ b :: l2) cls gen =
  if bool_decide (capacity b - num_qubits inst = 0)
  then Ok (mkState (l1 ++ l2) (cls ++ [set_full (put job inst b)]) gen)
  else Ok (mkState (l1 ++ put job inst b :: l2) cls gen).
Proof.
  unfold add_job. rewrite list_lookup_middle by done. simpl.
  rewrite delete_middle, insert_app_r_alt by done.
  by rewrite Nat.sub_diag.
Qed.

Lemma assign_Ok job inst st st' :
  assign accelerators job inst st = Ok st' →
  placement accelerators job inst st st'.
Proof.
  unfold assign.
  destruct (find_fitting_bin inst (open_bins st)) as [i|] eqn:Hopen.
  - apply find_fitting_bin_Some in Hopen as (l1 & b & l2 & Heq & <- & Hb & Hl1).
    rewrite Heq, add_job_middle. intros Hst.
    apply (Placement accelerators job inst st st' false l1 b l2); try done.
    simpl. by case_bool_decide; injection Hst as <-.
  - apply find_fitting_bin_None in Hopen.
    destruct (find_fitting_bin inst (fresh_bins accelerators (next_index st)))
      as [i|] eqn:Hnew; [| done].
    apply find_fitting_bin_Some in Hnew as (l1 & b & l2 & Heq & <- & Hb & Hl1).
    rewrite Heq, app_assoc.
    replace (length l1 + length (open_bins st))%nat
      with (length (open_bins st ++ l1)) by (rewrite length_app; lia).
    rewrite add_job_middle. intros Hst.
    apply (Placement accelerators job inst st st' true
             (open_bins st ++ l1) b l2); try done.
    + by rewrite Heq, app_assoc.
    + by apply Forall_app.
    + simpl. by case_bool_decide; injection Hst as <-.
Qed.

(** The only failure of an iteration is the assertion of line 46, and it
    means that neither an open nor a fresh bin has room for the job. *)
Lemma assign_Raise job inst st e :
  assign accelerators job inst st = Raise e →
  e = AssertionError ∧ infeasible accelerators inst ∧
  Forall (λ b, capacity b < num_qubits inst) (open_bins st).
Proof.
  unfold assign.
  destruct (find_fitting_bin inst (open_bins st)) as [i|] eqn:Hopen.
  - apply find_fitting_bin_Some in Hopen as (l1 & b & l2 & Heq & <- & Hb & Hl1).
    rewrite Heq, add_job_middle. by case_bool_decide.
  - apply find_fitting_bin_None in Hopen.
    destruct (find_fitting_bin inst (fresh_bins accelerators (next_index st)))
      as [i|] eqn:Hnew.
    + apply find_fitting_bin_Some in Hnew
        as (l1 & b & l2 & Heq & <- & Hb & Hl1).
      rewrite Heq, app_assoc.
      replace (length l1 + length (open_bins st))%nat
        with (length (open_bins st ++ l1)) by (rewrite length_app; lia).
      rewrite add_job_middle. by case_bool_decide.
    + apply find_fresh_None in Hnew. by intros [= <-].
Qed.

Lemma assign_infeasible job inst st :
  infeasible accelerators inst →
  Forall (λ b, capacity b < num_qubits inst) (open_bins st) →
  assign accelerators job inst st = Raise AssertionError.
Proof.
  intros Hinf Hopen. unfold assign.
  apply find_fitting_bin_None in Hopen. rewrite Hopen.
  apply (find_fresh_None inst (next_index st)) in Hinf. by rewrite Hinf.
Qed.
End steps.

(** ** Invariants of the loop *)

Lemma ascending_remove l1 b l2 :
  ascending (l1 ++ b :: l2) → ascending (l1 ++ l2).
Proof.
  unfold ascending. rewrite !fmap_app, fmap_cons, !StronglySorted_app.
  intros (Hcross & Hl1 & Hl2). apply StronglySorted_cons in Hl2 as [_ Hl2].
  split_and!; [| done | done].
  intros x1 x2 Hx1 Hx2. apply Hcross; [done |]. by apply elem_of_cons; right.
Qed.

Lemma ascending_replace l1 b b' l2 :
  index b' = index b → ascending (l1 ++ b :: l2) → ascending (l1 ++ b' :: l2).
Proof. unfold ascending. rewrite !fmap_app, !fmap_cons. by intros ->. Qed.

Lemma bin_load_put job inst b :
  instance job = Some inst →
  bin_load (put job inst b) = bin_load b + num_qubits inst.
Proof.
  intros Hjob. unfold bin_load, sumZ, put; simpl.
  induction (jobs b) as [|j l IH]; simpl.
  - unfold job_qubits. rewrite Hjob. simpl. lia.
  - rewrite IH. lia.
Qed.

Section invariants.
Variable accelerators : accelerators_t.


Lemma open_ok_mono gen gen' b :
  (gen ≤ gen')%nat →
  open_ok accelerators gen b → open_ok accelerators gen' b.
Proof.
  unfold open_ok, bin_wf. intros Hle (Hwf & ?).
  split; [| done]. split; [tauto | lia].
Qed.

Lemma closed_ok_mono gen gen' b :
  (gen ≤ gen')%nat →
  closed_ok accelerators gen b → closed_ok accelerators gen' b.
Proof.
  unfold closed_ok, bin_wf. intros Hle (Hwf & ?).
  split; [| done]. split; [tauto | lia].
Qed.

Lemma elem_of_fresh_bins gen b :
  b ∈ fresh_bins accelerators gen ↔
  ∃ i cap, accelerators.*2 !! i = Some cap ∧ b = mkBin cap false gen [] i.
Proof.
  unfold fresh_bins. rewrite elem_of_lookup_imap.
  split; intros (i & cap & H1 & H2); exists i, cap; by split.
Qed.

Lemma fresh_bins_index gen : index <$> fresh_bins accelerators gen =
                             replicate (length accelerators) gen.
Proof.
  apply list_eq; intros i. unfold fresh_bins.
  rewrite list_lookup_fmap, list_lookup_imap.
  destruct (decide (i < length accelerators)%nat) as [Hi|Hi].
  - rewrite lookup_replicate_2 by done.
    destruct (lookup_lt_is_Some_2 (accelerators.*2) i) as [c ->]; [| done].
    by rewrite length_fmap.
  - rewrite (proj1 (lookup_replicate_None _ _ _)) by lia.
    rewrite (lookup_ge_None_2 (accelerators.*2)); [done |].
    rewrite length_fmap. lia.
Qed.

Lemma fresh_bins_open_ok gen :
  Forall (open_ok accelerators (S gen)) (fresh_bins accelerators gen).
Proof.
  apply Forall_forall. intros b (i & cap & Hi & ->)%elem_of_fresh_bins.
  unfold open_ok, bin_wf, nominal, bin_load; simpl.
  rewrite Hi, Z.add_0_r. split_and!; [done | lia | done | lia].
Qed.

Lemma Inv_initial : Inv accelerators (initial_state accelerators).
Proof.
  split; simpl.
  - apply fresh_bins_open_ok.
  - constructor.
  - unfold ascending. rewrite fresh_bins_index.
    induction (length accelerators); simpl; constructor; [done |].
    apply Forall_forall. by intros x [-> _]%elem_of_replicate.
Qed.

Lemma put_open_ok gen job inst b :
  instance job = Some inst → num_qubits inst ≤ capacity b →
  capacity b - num_qubits inst ≠ 0 →
  open_ok accelerators gen b → open_ok accelerators gen (put job inst b).
Proof.
  intros Hjob Hfit Hne ((Hnom & Hidx) & Hfull & _).
  unfold open_ok, bin_wf, nominal in *.
  rewrite bin_load_put by done. simpl. rewrite Hnom.
  split_and!; [f_equal; lia | done | done | lia].
Qed.

Lemma put_closed_ok gen job inst b :
  instance job = Some inst → capacity b - num_qubits inst = 0 →
  open_ok accelerators gen b →
  closed_ok accelerators gen (set_full (put job inst b)).
Proof.
  intros Hjob Heq ((Hnom & Hidx) & _).
  unfold closed_ok, bin_wf, nominal in *.
  change (bin_load (set_full (put job inst b)))
    with (bin_load (put job inst b)).
  rewrite bin_load_put by done. simpl.
  rewrite Hnom, length_app. simpl.
  split_and!; [f_equal; lia | done | done | done | lia].
Qed.

Lemma placement_Inv job inst st st' :
  instance job = Some inst → Inv accelerators st →
  placement accelerators job inst st st' →
  Inv accelerators st'.
Proof.
  intros Hjob [Hopen Hclosed Hasc] [opened l1 b l2 Hsplit _ _ Hfit ->].
  set (gen := if opened then S (next_index st) else next_index st).
  assert (next_index st ≤ gen)%nat as Hgen
    by (unfold gen; destruct opened; lia).
  assert (Forall (open_ok accelerators gen) (l1 ++ b :: l2) ∧
          ascending (l1 ++ b :: l2))
    as [Hall Hasc'].
  { rewrite <- Hsplit. unfold gen. destruct opened; [| done]. split.
    - apply Forall_app. split; [| apply fresh_bins_open_ok].
      eapply Forall_impl; [done |]. intros x. apply open_ok_mono. lia.
    - unfold ascending. rewrite fmap_app, fresh_bins_index.
      apply StronglySorted_app. split_and!; [| done |].
      + intros x1 x2 (b1 & -> & Hb1)%list_elem_of_fmap [-> _]%elem_of_replicate.
        rewrite Forall_forall in Hopen.
        destruct (Hopen b1 Hb1) as ((_ & Hlt) & _). lia.
      + induction (length accelerators); simpl; constructor; [done |].
        apply Forall_forall. by intros x [-> _]%elem_of_replicate. }
  apply Forall_app in Hall as [Hl1 Hbl2].
  apply Forall_cons in Hbl2 as [Hb Hl2].
  assert (Forall (closed_ok accelerators gen) (closed_bins st)) as Hcl.
  { eapply Forall_impl; [done |]. intros x. by apply closed_ok_mono. }
  simpl. case_bool_decide as Hzero; split; simpl.
  - apply Forall_app. by split.
  - apply Forall_app. split; [done |]. constructor; [| done].
    by apply put_closed_ok.
  - by eapply ascending_remove.
  - apply Forall_app. split; [done |]. constructor; [| done].
    by apply put_open_ok.
  - done.
  - by apply (ascending_replace l1 b).
Qed.

Lemma assign_Inv job inst st st' :
  instance job = Some inst → Inv accelerators st →
  assign accelerators job inst st = Ok st' → Inv accelerators st'.
Proof.
  intros Hjob HI Hst. eapply placement_Inv; [done.. |]. by apply assign_Ok.
Qed.

Lemma pack_loop_Inv js st st' :
  Inv accelerators st → pack_loop accelerators js st = Ok st' →
  Inv accelerators st'.
Proof.
  revert st. induction js as [|job js IH]; intros st HI; simpl.
  - by intros [= <-].
  - destruct (instance job) as [inst|] eqn:Hjob; [| by apply IH].
    destruct (assign accelerators job inst st) as [st1|e] eqn:Hst1;
      simpl; [| done].
    apply IH. by eapply assign_Inv.
Qed.
End invariants.

(** ** The stable sort by generation *)

Lemma insert_by_index_Permutation b l : insert_by_index b l ≡ₚ b :: l.
Proof.
  induction l as [|x l IH]; simpl; [done |].
  case_bool_decide; [done |]. rewrite IH. apply Permutation_swap.
Qed.

Lemma sorted_by_index_Permutation l : sorted_by_index l ≡ₚ l.
Proof.
  induction l as [|x l IH]; simpl; [done |].
  by rewrite insert_by_index_Permutation, IH.
Qed.

Lemma insert_by_index_ascending b l :
  ascending l → ascending (insert_by_index b l).
Proof.
  unfold ascending. induction l as [|x l IH]; simpl; intros Hl.
  - repeat constructor.
  - apply StronglySorted_cons in Hl as [Hx Hl].
    case_bool_decide as Hle; simpl.
    + constructor; [by constructor |]. constructor; [done |].
      eapply Forall_impl; [done |]. simpl. lia.
    + constructor; [by apply IH |].
      rewrite insert_by_index_Permutation. constructor; [lia | done].
Qed.

Lemma sorted_by_index_ascending l : ascending (sorted_by_index l).
Proof.
  induction l as [|x l IH]; simpl; [constructor |].
  by apply insert_by_index_ascending.
Qed.

(** Stability: the bins of one generation keep their relative order. *)
Lemma insert_by_index_stable g b l :
  filter (λ x, index x = g) (insert_by_index b l) =
  filter (λ x, index x = g) (b :: l).
Proof.
  induction l as [|x l IH]; simpl; [done |].
  case_bool_decide as Hle; [done |].
  rewrite (filter_cons _ x), IH, !filter_cons.
  repeat case_decide; try done; lia.
Qed.

Lemma sorted_by_index_stable g l :
  filter (λ x, index x = g) (sorted_by_index l) = filter (λ x, index x = g) l.
Proof.
  induction l as [|x l IH]; simpl; [done |].
  by rewrite insert_by_index_stable, !filter_cons, IH.
Qed.

(** ** Where the jobs are *)

Lemma bind_jobs_nonempty (l : list Bin) :
  filter (λ b, (0 < length (jobs b))%nat) l ≫= jobs = l ≫= jobs.
Proof.
  induction l as [|b l IH]; [done |].
  rewrite filter_cons. case_decide as Hb.
  - by rewrite !bind_cons, IH.
  - rewrite bind_cons, IH. destruct (jobs b); [done | simpl in Hb; lia].
Qed.

Section placed_jobs.
Variable accelerators : accelerators_t.

Lemma fresh_bins_jobs gen : fresh_bins accelerators gen ≫= jobs = [].
Proof.
  assert (Forall (λ b, jobs b = []) (fresh_bins accelerators gen)) as Hall.
  { apply Forall_forall. by intros b (i & cap & _ & ->)%elem_of_fresh_bins. }
  induction Hall as [|b l Hb _ IH]; [done |]. by rewrite bind_cons, Hb, IH.
Qed.

Lemma close_all_jobs st : close_all st ≫= jobs = all_jobs st.
Proof.
  unfold close_all, all_jobs. by rewrite !bind_app, bind_jobs_nonempty.
Qed.

Lemma placement_jobs job inst st st' :
  placement accelerators job inst st st' → all_jobs st' ≡ₚ all_jobs st ++ [job].
Proof.
  intros [opened l1 b l2 Hsplit _ _ _ ->].
  assert (open_bins st ≫= jobs = (l1 ++ b :: l2) ≫= jobs) as Hopen.
  { rewrite <- Hsplit. destruct opened; [| done].
    by rewrite bind_app, fresh_bins_jobs, app_nil_r. }
  unfold all_jobs. simpl. rewrite (bind_app _ _ (open_bins st)), Hopen.
  case_bool_decide; simpl; rewrite !bind_app, !bind_cons; simpl.
  - rewrite app_nil_r, <- !app_assoc.
    apply Permutation_app_head.
    rewrite (Permutation_app_comm (l2 ≫= jobs) [job]).
    rewrite !(app_assoc (jobs b) [job]). apply Permutation_app_swap_app.
  - rewrite <- !app_assoc. do 3 apply Permutation_app_head.
    apply Permutation_app_comm.
Qed.

Lemma pack_loop_jobs js st st' :
  pack_loop accelerators js st = Ok st' →
  all_jobs st' ≡ₚ all_jobs st ++ filter has_instance js.
Proof.
  revert st. induction js as [|job js IH]; intros st; simpl.
  - intros [= <-]. by rewrite app_nil_r.
  - rewrite filter_cons.
    destruct (instance job) as [inst|] eqn:Hjob.
    + destruct (assign accelerators job inst st) as [st1|e] eqn:Hst1;
        simpl; [| done].
      intros Hst'. rewrite (IH _ Hst').
      apply assign_Ok, placement_jobs in Hst1. rewrite Hst1.
      rewrite decide_True by (unfold has_instance; by rewrite Hjob).
      by rewrite <- app_assoc.
    + intros Hst'. rewrite decide_False; [by apply IH |].
      unfold has_instance. rewrite Hjob. by intros [? ?].
Qed.

Lemma initial_jobs : all_jobs (initial_state accelerators) = [].
Proof. unfold all_jobs. simpl. apply fresh_bins_jobs. Qed.
End placed_jobs.

(** ** The identifiers of the jobs *)

Lemma new_jobs_lookup js i :
  new_jobs js !! i = (λ c, mkJob (pretty (i + 1)%nat) c) <$> js !! i.
Proof. unfold new_jobs. by rewrite list_lookup_imap. Qed.

Lemma new_jobs_app js1 js2 :
  new_jobs (js1 ++ js2) =
  new_jobs js1 ++
  imap (λ idx job, mkJob (pretty (length js1 + idx + 1)%nat) job) js2.
Proof.
  unfold new_jobs. rewrite imap_app. f_equal.
Qed.

Lemma new_jobs_NoDup js : NoDup (name <$> new_jobs js).
Proof.
  apply NoDup_alt. intros i j s.
  rewrite !list_lookup_fmap, !new_jobs_lookup.
  destruct (js !! i); [| done]. destruct (js !! j); [| done]. simpl.
  intros [= <-] [= Heq]. apply (inj pretty) in Heq. lia.
Qed.

Lemma new_jobs_elem_of js job :
  job ∈ new_jobs js ↔
  ∃ i c, js !! i = Some c ∧ job = mkJob (pretty (i + 1)%nat) c.
Proof.
  rewrite list_elem_of_lookup. split.
  - intros [i Hi]. rewrite new_jobs_lookup in Hi.
    destruct (js !! i) as [c|] eqn:Hc; [| done].
    injection Hi as <-. by exists i, c.
  - intros (i & c & Hc & ->). exists i. by rewrite new_jobs_lookup, Hc.
Qed.

(** ** From the loop to the schedule *)

Section schedule.
Variable accelerators : accelerators_t.

Lemma schedule_bins_Ok js out :
  schedule_bins accelerators js = Ok out →
  ∃ st, pack_loop accelerators (new_jobs js) (initial_state accelerators)
          = Ok st ∧
        Inv accelerators st ∧ out = sorted_by_index (close_all st).
Proof.
  unfold schedule_bins.
  destruct (pack_loop _ _ _) as [st|e] eqn:Hst; simpl; [| done].
  intros [= <-]. exists st. split_and!; [done | | done].
  eapply pack_loop_Inv; [apply Inv_initial | done].
Qed.

Lemma elem_of_schedule st b :
  Inv accelerators st → b ∈ sorted_by_index (close_all st) →
  closed_ok accelerators (next_index st) b ∨
  (open_ok accelerators (next_index st) b ∧ (0 < length (jobs b))%nat).
Proof.
  intros [Hopen Hclosed _]. rewrite sorted_by_index_Permutation.
  unfold close_all. rewrite elem_of_app, list_elem_of_filter.
  rewrite Forall_forall in Hopen, Hclosed.
  intros [Hb | [Hjobs Hb]]; [left | right]; auto.
Qed.

Lemma schedule_jobs js out :
  schedule_bins accelerators js = Ok out →
  out ≫= jobs ≡ₚ filter has_instance (new_jobs js).
Proof.
  intros (st & Hst & _ & ->)%schedule_bins_Ok.
  rewrite sorted_by_index_Permutation, close_all_jobs.
  rewrite (pack_loop_jobs _ _ _ _ Hst), initial_jobs. done.
Qed.

Context `{Time T}.

Lemma combined_jobs_names bins (rs : list (JobResultInfo T)) :
  combined_jobs accelerators bins = Ok rs →
  info_name <$> rs = name <$> (bins ≫= jobs).
Proof.
  revert rs. induction bins as [|b bins IH]; intros rs; simpl.
  - by intros [= <-].
  - destruct (bin_records accelerators b) as [r1|e] eqn:Hb; simpl; [| done].
    destruct (combined_jobs accelerators bins) as [r2|e] eqn:Hbins;
      simpl; [| done].
    intros [= <-]. rewrite !fmap_app, (IH r2 eq_refl).
    f_equal. unfold bin_records in Hb.
    destruct (accelerators.*1 !! qpu b).
    + injection Hb as <-. rewrite <- list_fmap_compose. done.
    + destruct (jobs b); [by injection Hb as <- | done].
Qed.

Lemma combined_jobs_Ok bins :
  Forall (λ b, is_Some (nominal accelerators b)) bins →
  ∃ rs : list (JobResultInfo T), combined_jobs accelerators bins = Ok rs.
Proof.
  induction 1 as [|b bins [cap Hb] _ [rs IH]]; simpl; [by eexists |].
  unfold bin_records. unfold nominal in Hb.
  destruct (lookup_lt_is_Some_2 (accelerators.*1) (qpu b)) as [m ->].
  { apply lookup_lt_Some in Hb. rewrite length_fmap in Hb.
    by rewrite length_fmap. }
  simpl. rewrite IH. simpl. by eexists.
Qed.

Lemma schedule_records js out :
  schedule_bins accelerators js = Ok out →
  ∃ rs : list (JobResultInfo T), combined_jobs accelerators out = Ok rs.
Proof.
  intros (st & _ & HI & ->)%schedule_bins_Ok.
  apply combined_jobs_Ok, Forall_forall. intros b Hb.
  destruct (elem_of_schedule st b HI Hb)
    as [((Hn & _) & _) | (((Hn & _) & _) & _)];
    by rewrite Hn.
Qed.
End schedule.

(** * The claims *)

(** ** Order of the bins *)

(** C1 (as amended): the bins of the schedule are in ascending order of
    their generation index, and the bins of one generation keep the order
    in which they were closed: the bins that filled up, in the order in
    which they did, then the bins still open at the end that hold a job, in
    the order of the open list. *)
Theorem schedule_order accelerators js out :
  schedule_bins accelerators js = Ok out →
  ascending out ∧
  ∃ st, pack_loop accelerators (new_jobs js) (initial_state accelerators)
          = Ok st ∧
        ∀ g, filter (λ b, index b = g) out =
             filter (λ b, index b = g)
               (closed_bins st ++
                filter (λ b, (0 < length (jobs b))%nat) (open_bins st)).
Proof.
  intros (st & Hst & _ & ->)%schedule_bins_Ok. split.
  - apply sorted_by_index_ascending.
  - exists st. split; [done |]. intros g. apply sorted_by_index_stable.
Qed.

Lemma schedule_order_witness :
  let accelerators := [("a"%string, 4); ("b"%string, 2)] in
  let js := circuits [3; 2] in
  let out := [mkBin 0 true 0 [mkJob "2" (Some (mkCircuit 2))] 1;
              mkBin 1 false 0 [mkJob "1" (Some (mkCircuit 3))] 0] in
  ascending out ∧
  ∃ st, pack_loop accelerators (new_jobs js) (initial_state accelerators)
          = Ok st ∧
        ∀ g, filter (λ b, index b = g) out =
             filter (λ b, index b = g)
               (closed_bins st ++
                filter (λ b, (0 < length (jobs b))%nat) (open_bins st)).
Proof.
  intros accelerators js out.
  apply (schedule_order accelerators js out). reflexivity.
Defined.

(** C1 (as stated) fails: with machines of 4 and 2 qubits and jobs of 3 and
    2 qubits, the bin of the second machine fills up first, is closed first
    and comes first in the schedule, before the bin of the first machine of
    the same generation. *)
Lemma machine_order_counterexample :
  let accelerators := [("a"%string, 4); ("b"%string, 2)] in
  ∃ out b1 b2,
    schedule_bins accelerators (circuits [3; 2]) = Ok out ∧
    out !! 0%nat = Some b1 ∧ out !! 1%nat = Some b2 ∧
    index b1 = index b2 ∧ (qpu b2 < qpu b1)%nat.
Proof.
  simpl. eexists _, _, _. split; [reflexivity |].
  split; [reflexivity |]. split; [reflexivity |]. simpl. split; [done | lia].
Qed.

(** ** Capacity *)

(** C4: in every bin of the schedule the qubits of its jobs sum to at most
    the capacity of the bin's machine, with equality exactly when the bin
    is marked full. *)
Theorem capacity_invariant accelerators js out b :
  schedule_bins accelerators js = Ok out → b ∈ out →
  ∃ cap, accelerators.*2 !! qpu b = Some cap ∧
         Forall has_instance (jobs b) ∧
         bin_load b ≤ cap ∧ (bin_load b = cap ↔ full b = true).
Proof.
  intros Hout Hb.
  assert (Forall has_instance (jobs b)) as Hjobs.
  { apply Forall_forall. intros j Hj.
    assert (j ∈ out ≫= jobs) as Hin by (apply list_elem_of_bind; eauto).
    rewrite (schedule_jobs _ _ _ Hout) in Hin.
    by apply list_elem_of_filter in Hin as [? _]. }
  apply schedule_bins_Ok in Hout as (st & _ & HI & ->).
  destruct (elem_of_schedule _ st b HI Hb)
    as [((Hn & _) & Hfull & Hcap & _) | (((Hn & _) & Hfull & Hcap) & Hlen)];
    unfold nominal in Hn; rewrite Hn; eexists; (split; [done |]);
    (split; [done |]).
  - rewrite Hcap, Hfull. split; [lia | split; [done | lia]].
  - rewrite Hfull. specialize (Hcap Hlen). split; [lia |].
    split; [lia | done].
Qed.

Lemma capacity_invariant_witness :
  let b := mkBin 0 true 0 [mkJob "2" (Some (mkCircuit 2))] 1 in
  ∃ cap, [("a"%string, 4); ("b"%string, 2)].*2 !! qpu b = Some cap ∧
         Forall has_instance (jobs b) ∧
         bin_load b ≤ cap ∧ (bin_load b = cap ↔ full b = true).
Proof.
  intros b.
  apply (capacity_invariant [("a"%string, 4); ("b"%string, 2)]
           (circuits [3; 2])
           [b; mkBin 1 false 0 [mkJob "1" (Some (mkCircuit 3))] 0]).
  - reflexivity.
  - apply list_elem_of_here.
Defined.

(** ** Coverage *)

Lemma has_instance_names js s :
  s ∈ name <$> filter has_instance (new_jobs js) ↔
  ∃ i c, js !! i = Some (Some c) ∧ s = pretty (i + 1)%nat.
Proof.
  rewrite list_elem_of_fmap. split.
  - intros (job & -> & Hjob). apply list_elem_of_filter in Hjob as [Hinst Hjob].
    apply new_jobs_elem_of in Hjob as (i & o & Hi & ->).
    destruct Hinst as [c Hc]. simpl in Hc. subst o. by exists i, c.
  - intros (i & c & Hi & ->). exists (mkJob (pretty (i + 1)%nat) (Some c)).
    split; [done |]. apply list_elem_of_filter. split; [by eexists |].
    apply new_jobs_elem_of. by exists i, (Some c).
Qed.

(** C5 (as amended): the job identifiers over the bins of the schedule, and
    over the records built from them, are exactly the identifiers
    [str(idx + 1)] of the entries of the job list that have a circuit, each
    one once. *)
Theorem coverage `{Time T} accelerators js out :
  schedule_bins accelerators js = Ok out →
  name <$> (out ≫= jobs) ≡ₚ name <$> filter has_instance (new_jobs js) ∧
  NoDup (name <$> (out ≫= jobs)) ∧
  (∀ s, s ∈ name <$> (out ≫= jobs) ↔
        ∃ i c, js !! i = Some (Some c) ∧ s = pretty (i + 1)%nat) ∧
  ∃ rs : list (JobResultInfo T),
    combined_jobs accelerators out = Ok rs ∧
    info_name <$> rs = name <$> (out ≫= jobs).
Proof.
  intros Hout. pose proof (schedule_jobs _ _ _ Hout) as Hperm.
  split_and!.
  - by rewrite Hperm.
  - rewrite Hperm. eapply sublist_NoDup; [apply (new_jobs_NoDup js) |].
    apply fmap_sublist, sublist_filter.
  - intros s. rewrite Hperm. apply has_instance_names.
  - destruct (schedule_records (T := T) _ _ _ Hout) as [rs Hrs].
    exists rs. split; [done |]. by apply (combined_jobs_names accelerators).
Qed.

Lemma coverage_witness :
  let accelerators := [("a"%string, 4)] in
  let js := [Some (mkCircuit 3); None] in
  let out := [mkBin 1 false 0 [mkJob "1" (Some (mkCircuit 3))] 0] in
  name <$> (out ≫= jobs) ≡ₚ name <$> filter has_instance (new_jobs js) ∧
  NoDup (name <$> (out ≫= jobs)) ∧
  (∀ s, s ∈ name <$> (out ≫= jobs) ↔
        ∃ i c, js !! i = Some (Some c) ∧ s = pretty (i + 1)%nat) ∧
  ∃ rs : list (JobResultInfo Z),
    combined_jobs accelerators out = Ok rs ∧
    info_name <$> rs = name <$> (out ≫= jobs).
Proof.
  intros accelerators js out.
  apply (coverage (T := Z) accelerators js out). reflexivity.
Defined.

(** C5 (as stated) fails: an entry without a circuit gets the identifier
    of its position but is in no bin, so the identifiers of the schedule
    are not those of all the entries. *)
Lemma coverage_counterexample :
  let accelerators := [("a"%string, 4)] in
  let js := [Some (mkCircuit 3); None] in
  ∃ out, schedule_bins accelerators js = Ok out ∧
         name <$> new_jobs js = ["1"; "2"]%string ∧
         name <$> (out ≫= jobs) = ["1"]%string ∧
         ¬ (name <$> (out ≫= jobs) ≡ₚ name <$> new_jobs js).
Proof.
  simpl. eexists. split; [reflexivity |].
  split; [reflexivity |]. split; [reflexivity |].
  intros Hperm. apply Permutation_length in Hperm. simpl in Hperm. lia.
Qed.

(** ** Entries without a circuit *)

Lemma pack_loop_skip accelerators js st :
  pack_loop accelerators js st =
  pack_loop accelerators (filter has_instance js) st.
Proof.
  revert st. induction js as [|job js IH]; intros st; [done |].
  rewrite filter_cons. simpl.
  destruct (instance job) as [inst|] eqn:Hjob.
  - rewrite decide_True by (unfold has_instance; by rewrite Hjob).
    simpl. rewrite Hjob.
    destruct (assign accelerators job inst st); simpl; [apply IH | done].
  - rewrite decide_False; [apply IH |].
    unfold has_instance. rewrite Hjob. by intros [? ?].
Qed.

(** C10: an entry of the job list without a circuit is skipped.  The loop
    runs as on the list of the jobs that have one, each with the identifier
    of its position in the full list, so that the skipped entry still uses
    up its identifier; that identifier is in no bin of the schedule and in
    no record, and the skipped entry raises no error. *)
Theorem skipped_entries `{Time T} accelerators js :
  pack_loop accelerators (new_jobs js) (initial_state accelerators) =
  pack_loop accelerators (filter has_instance (new_jobs js))
            (initial_state accelerators) ∧
  ∀ i, js !! i = Some None →
    new_jobs js !! i = Some (mkJob (pretty (i + 1)%nat) None) ∧
    ∀ out, schedule_bins accelerators js = Ok out →
      (∀ b, b ∈ out → pretty (i + 1)%nat ∉ name <$> jobs b) ∧
      ∃ rs : list (JobResultInfo T),
        combined_jobs accelerators out = Ok rs ∧
        pretty (i + 1)%nat ∉ info_name <$> rs.
Proof.
  split; [apply pack_loop_skip |].
  intros i Hi. split; [by rewrite new_jobs_lookup, Hi |].
  intros out Hout.
  destruct (schedule_records (T := T) _ _ _ Hout) as [rs Hrs].
  pose proof (combined_jobs_names accelerators _ _ Hrs) as Heq.
  assert (pretty (i + 1)%nat ∉ name <$> (out ≫= jobs)) as Hnot.
  { rewrite (schedule_jobs _ _ _ Hout), has_instance_names.
    intros (k & c & Hk & Heqk).
    apply (inj pretty) in Heqk. assert (k = i) as -> by lia. congruence. }
  split.
  - intros b Hb Hin. apply Hnot.
    apply list_elem_of_fmap in Hin as (job & -> & Hjob).
    apply list_elem_of_fmap_2, list_elem_of_bind. eauto.
  - exists rs. split; [done |]. by rewrite Heq.
Qed.

Lemma skipped_entries_witness :
  let accelerators := [("a"%string, 4)] in
  let js := [None; Some (mkCircuit 3)] in
  pack_loop accelerators (new_jobs js) (initial_state accelerators)
    = Ok (mkState [mkBin 1 false 0 [mkJob "2" (Some (mkCircuit 3))] 0] [] 1) ∧
  new_jobs js !! 0%nat = Some (mkJob "1" None) ∧
  ∃ rs : list (JobResultInfo Z),
    combined_jobs accelerators
      [mkBin 1 false 0 [mkJob "2" (Some (mkCircuit 3))] 0] = Ok rs ∧
    "1"%string ∉ info_name <$> rs.
Proof.
  intros accelerators js.
  destruct (skipped_entries (T := Z) accelerators js) as [Hloop Hskip].
  destruct (Hskip 0%nat eq_refl) as [Hid Hout].
  destruct (Hout _ eq_refl) as [_ Hrs].
  split; [by rewrite Hloop |]. split; [exact Hid | exact Hrs].
Defined.

(** ** Scenario A *)

(** C8: two machines of 4 qubits and three jobs of 3 qubits give three
    bins: job 1 on machine 0 and job 2 on machine 1 in generation 0, job 3
    on machine 0 in generation 1. *)
Theorem scenario_A (m0 m1 : string) :
  schedule_bins [(m0, 4); (m1, 4)] (circuits [3; 3; 3]) =
    Ok [mkBin 1 false 0 [mkJob "1" (Some (mkCircuit 3))] 0;
        mkBin 1 false 0 [mkJob "2" (Some (mkCircuit 3))] 1;
        mkBin 1 false 1 [mkJob "3" (Some (mkCircuit 3))] 0] ∧
  combined_jobs (T := Z) [(m0, 4); (m1, 4)]
    [mkBin 1 false 0 [mkJob "1" (Some (mkCircuit 3))] 0;
     mkBin 1 false 0 [mkJob "2" (Some (mkCircuit 3))] 1;
     mkBin 1 false 1 [mkJob "3" (Some (mkCircuit 3))] 0] =
    Ok [mkInfo "1" m0 0 (-1); mkInfo "2" m1 0 (-1); mkInfo "3" m0 1 (-1)].
Proof. split; reflexivity. Qed.

(** ** Jobs that fit nowhere *)

Section infeasible_jobs.
Variable accelerators : accelerators_t.

Lemma fresh_bins_within gen :
  Forall (within_nominal accelerators) (fresh_bins accelerators gen).
Proof.
  apply Forall_forall. intros b (i & cap & Hi & ->)%elem_of_fresh_bins.
  exists cap. by split.
Qed.

Lemma placement_within job inst st st' :
  0 ≤ num_qubits inst →
  Forall (within_nominal accelerators) (open_bins st) →
  placement accelerators job inst st st' →
  Forall (within_nominal accelerators) (open_bins st').
Proof.
  intros Hq Hopen [opened l1 b l2 Hsplit _ _ _ ->].
  assert (Forall (within_nominal accelerators) (l1 ++ b :: l2)) as Hall.
  { rewrite <- Hsplit. destruct opened; [| done].
    apply Forall_app. split; [done | apply fresh_bins_within]. }
  apply Forall_app in Hall as [Hl1 Hbl2].
  apply Forall_cons in Hbl2 as [(cap & Hcap & Hle) Hl2].
  simpl. case_bool_decide; simpl; apply Forall_app; split; try done.
  constructor; [| done]. exists cap. split; [done | simpl; lia].
Qed.

Lemma infeasible_open inst bins :
  infeasible accelerators inst → Forall (within_nominal accelerators) bins →
  Forall (λ b, capacity b < num_qubits inst) bins.
Proof.
  unfold infeasible. rewrite Forall_forall. intros Hinf Hbins.
  eapply Forall_impl; [exact Hbins |]. intros b (cap & Hcap & Hle).
  apply list_elem_of_lookup_2 in Hcap. specialize (Hinf cap Hcap). lia.
Qed.

Lemma pack_loop_app js1 js2 st :
  pack_loop accelerators (js1 ++ js2) st =
  pack_loop accelerators js1 st ≫= pack_loop accelerators js2.
Proof.
  revert st. induction js1 as [|job js1 IH]; intros st; simpl; [done |].
  destruct (instance job) as [inst|]; [| apply IH].
  destruct (assign accelerators job inst st); simpl; [apply IH | done].
Qed.

(** The loop can only fail by the assertion, at a job that is larger than
    every machine. *)
Lemma pack_loop_Raise js st e :
  pack_loop accelerators js st = Raise e →
  e = AssertionError ∧
  ∃ job inst, job ∈ js ∧ instance job = Some inst ∧
              infeasible accelerators inst.
Proof.
  revert st. induction js as [|job js IH]; intros st; simpl; [done |].
  destruct (instance job) as [inst|] eqn:Hjob.
  - destruct (assign accelerators job inst st) as [st1|e1] eqn:Hst1; simpl.
    + intros (-> & job' & inst' & Hin & Hinst)%IH. split; [done |].
      exists job', inst'. split; [by apply elem_of_cons; right | done].
    + intros [= ->]. apply assign_Raise in Hst1 as (-> & Hinf & _).
      split; [done |]. exists job, inst.
      split; [apply list_elem_of_here | done].
  - intros (-> & job' & inst' & Hin & Hinst)%IH. split; [done |].
    exists job', inst'. split; [by apply elem_of_cons; right | done].
Qed.

(** Jobs that each fit on some machine are all placed. *)
Lemma pack_loop_feasible js st :
  Forall (within_nominal accelerators) (open_bins st) →
  (∀ job inst, job ∈ js → instance job = Some inst →
     0 ≤ num_qubits inst ∧ ¬ infeasible accelerators inst) →
  ∃ st', pack_loop accelerators js st = Ok st' ∧
         Forall (within_nominal accelerators) (open_bins st').
Proof.
  revert st. induction js as [|job js IH]; intros st Hopen Hjs; simpl.
  - by exists st.
  - assert (∀ job' inst, job' ∈ js → instance job' = Some inst →
              0 ≤ num_qubits inst ∧ ¬ infeasible accelerators inst) as Hjs'.
    { intros job' inst Hin. apply Hjs. by apply elem_of_cons; right. }
    destruct (instance job) as [inst|] eqn:Hjob; [| by apply IH].
    destruct (Hjs job inst (list_elem_of_here _ _) Hjob) as [Hq Hfeas].
    destruct (assign accelerators job inst st) as [st1|e] eqn:Hst1; simpl.
    + apply IH; [| done]. eapply placement_within; [done.. |].
      by apply assign_Ok.
    + by apply assign_Raise in Hst1 as (_ & Hinf & _).
Qed.

(** With a job that is larger than every machine the loop fails. *)
Lemma pack_loop_infeasible js st :
  Forall (within_nominal accelerators) (open_bins st) →
  (∀ job inst, job ∈ js → instance job = Some inst → 0 ≤ num_qubits inst) →
  (∃ job inst, job ∈ js ∧ instance job = Some inst ∧
               infeasible accelerators inst) →
  pack_loop accelerators js st = Raise AssertionError.
Proof.
  revert st. induction js as [|job js IH]; intros st Hopen Hjs Hex; simpl.
  { destruct Hex as (job & inst & Hin & _). by apply elem_of_nil in Hin. }
  assert (∀ job' inst, job' ∈ js → instance job' = Some inst →
            0 ≤ num_qubits inst) as Hjs'.
  { intros job' inst Hin. apply Hjs. by apply elem_of_cons; right. }
  destruct (instance job) as [inst|] eqn:Hjob.
  - destruct (decide (infeasible accelerators inst)) as [Hinf|Hfeas].
    + rewrite assign_infeasible; [done | done |]. by apply infeasible_open.
    + destruct (assign accelerators job inst st) as [st1|e] eqn:Hst1; simpl.
      * apply IH; [| done |].
        -- eapply placement_within; [| done | by apply assign_Ok].
           by eapply Hjs; [apply list_elem_of_here |].
        -- destruct Hex as (job' & inst' & Hin & Hinst & Hinf).
           apply elem_of_cons in Hin as [-> | Hin]; [congruence |].
           by exists job', inst'.
      * by apply assign_Raise in Hst1 as (_ & Hinf & _).
  - apply IH; [done | done |].
    destruct Hex as (job' & inst' & Hin & Hinst & Hinf).
    apply elem_of_cons in Hin as [-> | Hin]; [congruence |].
    by exists job', inst'.
Qed.

Lemma new_jobs_instance js inst :
  (∃ job, job ∈ new_jobs js ∧ instance job = Some inst) ↔ Some inst ∈ js.
Proof.
  split.
  - intros (job & (i & c & Hi & ->)%new_jobs_elem_of & Hjob).
    simpl in Hjob. subst c. by eapply list_elem_of_lookup_2.
  - intros [i Hi]%list_elem_of_lookup.
    exists (mkJob (pretty (i + 1)%nat) (Some inst)). split; [| done].
    apply new_jobs_elem_of. by exists i, (Some inst).
Qed.

Lemma initial_within :
  Forall (within_nominal accelerators) (open_bins (initial_state accelerators)).
Proof. apply fresh_bins_within. Qed.

End infeasible_jobs.

(** C6: for jobs with a nonnegative number of qubits, the packer fails, by
    the assertion, exactly when some job of the list needs more qubits than
    every machine has; it fails in no other way, and with it the whole call
    fails: no schedule is returned.  The jobs before the first such job are
    placed and the iteration for that job raises the assertion, whatever
    jobs follow. *)
Theorem infeasible_job_aborts (accelerators : accelerators_t)
    (js : list (option QuantumCircuit)) :
  (∀ inst, Some inst ∈ js → 0 ≤ num_qubits inst) →
  (schedule_bins accelerators js = Raise AssertionError ↔
   ∃ inst, Some inst ∈ js ∧ infeasible accelerators inst) ∧
  (∀ e, schedule_bins accelerators js = Raise e → e = AssertionError) ∧
  (∀ `{Time T} (process_times : list (list T))
     (setup_times : list (list (list T))) e,
     schedule_bins accelerators js = Raise e →
     generate_baseline_schedule js accelerators process_times setup_times
       = Raise e) ∧
  (∀ pre inst post,
     js = pre ++ Some inst :: post →
     (∀ inst', Some inst' ∈ pre → ¬ infeasible accelerators inst') →
     infeasible accelerators inst →
     ∃ st rest,
       new_jobs js =
         new_jobs pre ++
         mkJob (pretty (length pre + 1)%nat) (Some inst) :: rest ∧
       pack_loop accelerators (new_jobs pre) (initial_state accelerators)
         = Ok st ∧
       assign accelerators (mkJob (pretty (length pre + 1)%nat) (Some inst))
              inst st = Raise AssertionError).
Proof.
  intros Hnonneg.
  assert (∀ l job inst, (∀ c, Some c ∈ l → 0 ≤ num_qubits c) →
            job ∈ new_jobs l → instance job = Some inst →
            0 ≤ num_qubits inst) as Hnn.
  { intros l job inst Hl Hin Hinst. apply Hl.
    apply new_jobs_instance. by exists job. }
  assert (∀ e, schedule_bins accelerators js = Raise e ↔
               pack_loop accelerators (new_jobs js)
                 (initial_state accelerators) = Raise e) as Hloop.
  { intros e. unfold schedule_bins.
    destruct (pack_loop _ _ _); simpl; [done |]. by split; intros [= ->]. }
  split_and!.
  - rewrite Hloop. split.
    + intros (_ & job & inst & Hin & Hinst & Hinf)%pack_loop_Raise.
      exists inst. split; [| done]. apply new_jobs_instance. by exists job.
    + intros (inst & Hin & Hinf). apply pack_loop_infeasible.
      * apply initial_within.
      * intros job c. by apply Hnn.
      * apply new_jobs_instance in Hin as (job & Hin & Hinst).
        by exists job, inst.
  - intros e. rewrite Hloop. by intros [-> _]%pack_loop_Raise.
  - intros T HT process_times setup_times e He.
    unfold generate_baseline_schedule. by rewrite He.
  - intros pre inst post -> Hpre Hinf.
    destruct (pack_loop_feasible accelerators (new_jobs pre)
                (initial_state accelerators)) as (st & Hst & Hwithin).
    { apply initial_within. }
    { intros job c Hin Hinst. split.
      - apply (Hnn pre job c); [| done | done].
        intros c' Hc'. apply Hnonneg. apply elem_of_app. by left.
      - apply Hpre. apply new_jobs_instance. by exists job. }
    exists st. eexists. split_and!; [| done |].
    + rewrite new_jobs_app. f_equal. rewrite imap_cons. f_equal.
      by rewrite Nat.add_0_r.
    + apply assign_infeasible; [done |].
      by apply (infeasible_open accelerators).
Qed.

Lemma infeasible_job_aborts_witness :
  schedule_bins [("a"%string, 4)] (circuits [3; 5; 1]) = Raise AssertionError.
Proof.
  apply (infeasible_job_aborts [("a"%string, 4)] (circuits [3; 5; 1])).
  - intros inst Hin. apply list_elem_of_In in Hin. simpl in Hin.
    destruct Hin as [[= <-] | [[= <-] | [[= <-] | []]]]; simpl; lia.
  - exists (mkCircuit 5). split.
    + apply list_elem_of_In. simpl. auto.
    + unfold infeasible. simpl. constructor; [lia | constructor].
Defined.

(** ** Generations *)

Section generations.
Variable accelerators : accelerators_t.

Lemma placement_next_index job inst st st' :
  placement accelerators job inst st st' →
  (next_index st ≤ next_index st' ≤ S (next_index st))%nat.
Proof.
  intros [opened l1 b l2 _ _ _ _ ->]. simpl.
  case_bool_decide; destruct opened; simpl; lia.
Qed.

Lemma pack_loop_next_index js st st' :
  pack_loop accelerators js st = Ok st' →
  (next_index st' ≤ next_index st + length (filter has_instance js))%nat.
Proof.
  revert st. induction js as [|job js IH]; intros st; simpl.
  - intros [= <-]. lia.
  - rewrite filter_cons. destruct (instance job) as [inst|] eqn:Hjob.
    + rewrite decide_True by (unfold has_instance; by rewrite Hjob).
      destruct (assign accelerators job inst st) as [st1|e] eqn:Hst1;
        simpl; [| done].
      intros Hst'%IH. apply assign_Ok, placement_next_index in Hst1. lia.
    + rewrite decide_False; [apply IH |].
      unfold has_instance. rewrite Hjob. by intros [? ?].
Qed.

(** The first job never opens a generation: what does not fit into the
    fresh bins of generation 0 fits into no fresh bin. *)
Lemma assign_initial job inst st' :
  assign accelerators job inst (initial_state accelerators) = Ok st' →
  next_index st' = 1%nat.
Proof.
  unfold assign. simpl.
  rewrite (find_fitting_bin_capacities inst (fresh_bins accelerators 1)
             (fresh_bins accelerators 0))
    by (by rewrite !fresh_bins_capacity).
  destruct (find_fitting_bin inst (fresh_bins accelerators 0))
    as [i|]; [| done].
  unfold add_job. destruct (fresh_bins accelerators 0 !! i); [| done].
  by case_bool_decide; intros [= <-].
Qed.

Lemma pack_loop_initial js st' :
  pack_loop accelerators js (initial_state accelerators) = Ok st' →
  (next_index st' ≤ Nat.max 1 (length (filter has_instance js)))%nat.
Proof.
  induction js as [|job js IH]; simpl.
  - intros [= <-]. simpl. lia.
  - rewrite filter_cons. destruct (instance job) as [inst|] eqn:Hjob.
    + rewrite decide_True by (unfold has_instance; by rewrite Hjob).
      destruct (assign accelerators job inst (initial_state accelerators))
        as [st1|e] eqn:Hst1; simpl; [| done].
      intros Hst'%pack_loop_next_index. apply assign_initial in Hst1.
      simpl. lia.
    + rewrite decide_False; [apply IH |].
      unfold has_instance. rewrite Hjob. by intros [? ?].
Qed.
End generations.

(** *** Demand against capacity *)

Lemma sumZ_app {A} (f : A → Z) l1 l2 :
  sumZ f (l1 ++ l2) = sumZ f l1 + sumZ f l2.
Proof. unfold sumZ. induction l1 as [|x l1 IH]; simpl; lia. Qed.

Lemma sumZ_Permutation {A} (f : A → Z) l1 l2 :
  l1 ≡ₚ l2 → sumZ f l1 = sumZ f l2.
Proof. unfold sumZ. induction 1; simpl; lia. Qed.

Lemma sumZ_bind {A B} (f : B → Z) (g : A → list B) l :
  sumZ f (l ≫= g) = sumZ (λ x, sumZ f (g x)) l.
Proof.
  induction l as [|x l IH]; [done |].
  rewrite bind_cons, sumZ_app, IH. done.
Qed.

Lemma sumZ_le {A} (f g : A → Z) l :
  Forall (λ x, f x ≤ g x) l → sumZ f l ≤ sumZ g l.
Proof. unfold sumZ. induction 1; simpl; lia. Qed.

Lemma sumZ_imap {A B} (g : B → Z) (h : A → Z) (f : nat → A → B) l :
  (∀ i x, g (f i x) = h x) → sumZ g (imap f l) = sumZ h l.
Proof.
  revert f. induction l as [|x l IH]; intros f Hf; [done |].
  rewrite imap_cons. unfold sumZ in *. simpl. rewrite Hf, IH; [done |].
  intros i y. apply Hf.
Qed.

Lemma sumZ_has_instance l :
  sumZ job_qubits (filter has_instance l) = sumZ job_qubits l.
Proof.
  induction l as [|job l IH]; [done |].
  rewrite filter_cons. case_decide as Hjob.
  - unfold sumZ in *. simpl. by rewrite IH.
  - rewrite IH. unfold sumZ at 2. simpl. fold (sumZ job_qubits l).
    unfold job_qubits at 2. unfold has_instance in Hjob.
    destruct (instance job); [| simpl; lia]. by destruct Hjob.
Qed.

Lemma sumZ_new_jobs js : sumZ job_qubits (new_jobs js) = total_demand js.
Proof.
  unfold new_jobs, total_demand. apply sumZ_imap. intros i o. reflexivity.
Qed.

Section demand.
Variable accelerators : accelerators_t.

Lemma fresh_bins_weight gen :
  sumZ weight (fresh_bins accelerators gen) = total_capacity accelerators.
Proof.
  unfold fresh_bins, total_capacity. apply sumZ_imap. intros i cap.
  unfold weight, bin_load. simpl. change (sumZ job_qubits []) with 0. lia.
Qed.

Lemma weight_put job inst b :
  instance job = Some inst → weight (put job inst b) = weight b.
Proof.
  intros Hjob. unfold weight. rewrite bin_load_put by done. simpl. lia.
Qed.

(** Every generation contributes the capacity of all the machines. *)
Lemma placement_weight job inst st st' :
  instance job = Some inst → placement accelerators job inst st st' →
  total_weight st = Z.of_nat (next_index st) * total_capacity accelerators →
  total_weight st' = Z.of_nat (next_index st') * total_capacity accelerators.
Proof.
  intros Hjob [opened l1 b l2 Hsplit _ _ _ ->] Hst.
  assert (sumZ weight (l1 ++ b :: l2) =
          sumZ weight (open_bins st) +
          (if opened then total_capacity accelerators else 0)) as Hopen.
  { rewrite <- Hsplit. destruct opened; [| lia].
    by rewrite sumZ_app, fresh_bins_weight. }
  unfold total_weight in *. rewrite sumZ_app in Hopen.
  change (sumZ weight (b :: l2)) with (weight b + sumZ weight l2) in Hopen.
  simpl. case_bool_decide; simpl; rewrite !sumZ_app.
  - change (sumZ weight [set_full (put job inst b)])
      with (weight (put job inst b) + 0).
    rewrite weight_put by done. destruct opened; lia.
  - change (sumZ weight (put job inst b :: l2))
      with (weight (put job inst b) + sumZ weight l2).
    rewrite weight_put by done. destruct opened; lia.
Qed.

Lemma pack_loop_weight js st st' :
  pack_loop accelerators js st = Ok st' →
  total_weight st = Z.of_nat (next_index st) * total_capacity accelerators →
  total_weight st' = Z.of_nat (next_index st') * total_capacity accelerators.
Proof.
  revert st. induction js as [|job js IH]; intros st; simpl.
  - by intros [= <-].
  - destruct (instance job) as [inst|] eqn:Hjob; [| apply IH].
    destruct (assign accelerators job inst st) as [st1|e] eqn:Hst1;
      simpl; [| done].
    intros Hst' Hst. apply (IH st1 Hst').
    eapply placement_weight; [done | by apply assign_Ok | done].
Qed.

Lemma initial_weight :
  total_weight (initial_state accelerators) =
  Z.of_nat (next_index (initial_state accelerators)) *
  total_capacity accelerators.
Proof.
  unfold total_weight. simpl. rewrite fresh_bins_weight.
  change (sumZ weight []) with 0. lia.
Qed.

(** No bin has more load than its machine has capacity. *)
Lemma load_le_weight st :
  Forall (λ cap, 0 ≤ cap) (accelerators.*2) → Inv accelerators st →
  sumZ bin_load (closed_bins st ++ open_bins st) ≤ total_weight st.
Proof.
  intros Hcaps [Hopen Hclosed _]. unfold total_weight.
  rewrite sumZ_app.
  apply Z.add_le_mono; apply sumZ_le; (eapply Forall_impl; [done |]); simpl.
  - intros b (_ & _ & Hcap & _). unfold weight. lia.
  - intros b ((Hnom & _) & _ & Hpos). unfold weight.
    destruct (jobs b) as [|job l] eqn:Hjobs.
    + unfold nominal in Hnom. apply list_elem_of_lookup_2 in Hnom.
      rewrite Forall_forall in Hcaps. specialize (Hcaps _ Hnom).
      unfold bin_load in *. rewrite Hjobs in *.
      change (sumZ job_qubits []) with 0 in *. lia.
    + assert (0 < capacity b) by (apply Hpos; simpl; lia). lia.
Qed.
End demand.

Section used_generations.
Variable accelerators : accelerators_t.

Lemma placement_used job inst st st' :
  placement accelerators job inst st st' →
  (∀ g, (g < next_index st)%nat → generation_used st g) →
  ∀ g, (g < next_index st')%nat → generation_used st' g.
Proof.
  intros [opened l1 b l2 Hsplit Hnew Hl1 Hfit Hst'] Hused g Hg.
  simpl in Hst'.
  set (gen := if opened then S (next_index st) else next_index st) in *.
  assert (∃ x, x ∈ close_all st' ∧ index x = index b) as Hchosen.
  { rewrite Hst'. unfold close_all. case_bool_decide; simpl.
    - exists (set_full (put job inst b)). split; [| done].
      rewrite !elem_of_app, list_elem_of_singleton. auto.
    - exists (put job inst b). split; [| done].
      rewrite elem_of_app, list_elem_of_filter, elem_of_app, elem_of_cons.
      right. split; [| auto]. simpl. rewrite length_app. simpl. lia. }
  assert (∀ x, x ∈ close_all st → x ∈ close_all st' ∨ index x = index b)
    as Hkept.
  { intros x. rewrite Hst'. unfold close_all.
    rewrite elem_of_app, list_elem_of_filter. intros [Hx | [Hlen Hx]].
    - left. case_bool_decide; simpl; rewrite !elem_of_app; auto.
    - assert (x ∈ l1 ++ b :: l2) as Hin.
      { rewrite <- Hsplit. destruct opened; [| done].
        apply elem_of_app. by left. }
      rewrite elem_of_app, elem_of_cons in Hin.
      destruct Hin as [Hin | [-> | Hin]]; [| by right |];
        left; case_bool_decide; simpl;
        rewrite !elem_of_app, list_elem_of_filter, ?elem_of_app,
          ?elem_of_cons; tauto. }
  assert (next_index st' = gen) as Hgen
    by (rewrite Hst'; by case_bool_decide).
  rewrite Hgen in Hg. unfold generation_used.
  destruct (decide (g < next_index st)%nat) as [Hlt|Hge].
  - destruct (Hused g Hlt) as (x & Hx & Hidx).
    destruct (Hkept x Hx) as [Hx' | Hxb]; [by exists x |].
    destruct Hchosen as (y & Hy & Hyb). exists y. split; [done | lia].
  - destruct opened; [| unfold gen in Hg; lia].
    assert (g = next_index st) as -> by (unfold gen in Hg; lia).
    destruct Hchosen as (y & Hy & Hyb). exists y. split; [done |].
    rewrite Hyb. specialize (Hnew eq_refl).
    assert (b ∈ open_bins st ++ fresh_bins accelerators (next_index st)) as Hb.
    { rewrite Hsplit, elem_of_app, elem_of_cons. auto. }
    apply elem_of_app in Hb as [Hb | Hb].
    + rewrite Forall_forall in Hnew. specialize (Hnew b Hb). lia.
    + by apply elem_of_fresh_bins in Hb as (i & cap & _ & ->).
Qed.

Lemma pack_loop_used js st st' :
  pack_loop accelerators js st = Ok st' →
  (∀ g, (g < next_index st)%nat → generation_used st g) →
  ∀ g, (g < next_index st')%nat → generation_used st' g.
Proof.
  revert st. induction js as [|job js IH]; intros st; simpl.
  - by intros [= <-].
  - destruct (instance job) as [inst|] eqn:Hjob; [| apply IH].
    destruct (assign accelerators job inst st) as [st1|e] eqn:Hst1;
      simpl; [| done].
    intros Hst' Hused. apply (IH st1 Hst').
    eapply placement_used; [by apply assign_Ok | done].
Qed.

(** Once a job is placed, every generation opened holds a job. *)
Lemma pack_loop_initial_used js st' :
  pack_loop accelerators js (initial_state accelerators) = Ok st' →
  (0 < length (filter has_instance js))%nat →
  ∀ g, (g < next_index st')%nat → generation_used st' g.
Proof.
  induction js as [|job js IH]; simpl; [lia |].
  rewrite filter_cons. destruct (instance job) as [inst|] eqn:Hjob.
  - destruct (assign accelerators job inst (initial_state accelerators))
      as [st1|e] eqn:Hst1; simpl; [| done].
    intros Hst' _. apply (pack_loop_used _ _ _ Hst').
    intros g Hg. rewrite (assign_initial _ _ _ _ Hst1) in Hg.
    assert (g = 0)%nat as -> by lia.
    pose proof (assign_Inv _ _ _ _ _ Hjob (Inv_initial accelerators) Hst1)
      as [Hopen Hclosed _].
    apply assign_Ok in Hst1 as Hplace.
    apply placement_jobs in Hplace. rewrite initial_jobs in Hplace.
    rewrite <- close_all_jobs in Hplace. simpl in Hplace.
    assert (job ∈ close_all st1 ≫= jobs) as Hin
      by (rewrite Hplace; apply list_elem_of_here).
    apply list_elem_of_bind in Hin as (b & _ & Hb).
    exists b. split; [done |]. unfold close_all in Hb.
    rewrite (assign_initial _ _ _ _ Hst1) in Hopen, Hclosed.
    rewrite Forall_forall in Hopen, Hclosed.
    apply elem_of_app in Hb as [Hb | [_ Hb]%list_elem_of_filter].
    + destruct (Hclosed b Hb) as ((_ & Hlt) & _). lia.
    + destruct (Hopen b Hb) as ((_ & Hlt) & _). lia.
  - rewrite decide_False; [apply IH |].
    unfold has_instance. rewrite Hjob. by intros [? ?].
Qed.
End used_generations.

Lemma total_capacity_nonneg accelerators :
  Forall (λ cap, 0 ≤ cap) (accelerators.*2) → 0 ≤ total_capacity accelerators.
Proof.
  unfold total_capacity. generalize (accelerators.*2). intros l Hl.
  induction Hl as [|cap l Hcap _ IH]; [done |].
  change (sumZ id (cap :: l)) with (cap + sumZ id l). lia.
Qed.

(** The generations that hold a job are counted by [generations_used]. *)
Lemma generations_used_ge st :
  (∀ g, (g < next_index st)%nat → generation_used st g) →
  (next_index st ≤ generations_used (sorted_by_index (close_all st)))%nat.
Proof.
  intros Hused. unfold generations_used.
  rewrite <- (length_seq (next_index st) 0) at 1. apply submseteq_length.
  apply NoDup_submseteq; [apply NoDup_seq |].
  intros g [_ Hg]%elem_of_seq.
  destruct (Hused g) as (b & Hb & <-); [lia |].
  apply elem_of_remove_dups, list_elem_of_fmap_2.
  by rewrite sorted_by_index_Permutation.
Qed.

(** C3 (as amended): the generation indices of the bins of the schedule
    are all smaller than the number of jobs of the list that have a circuit,
    so that the number of distinct generation indices used is at most that
    number.  When no machine has a negative capacity, the qubits of all the
    jobs are at most the number of generations used times the sum of the
    machine capacities: the quotient of the claim bounds the number of
    generations from below. *)
Theorem generations_bound accelerators js out :
  schedule_bins accelerators js = Ok out →
  (∀ b, b ∈ out → (index b < job_count js)%nat) ∧
  (generations_used out ≤ job_count js)%nat ∧
  (Forall (λ cap, 0 ≤ cap) (accelerators.*2) →
   total_demand js ≤
   Z.of_nat (generations_used out) * total_capacity accelerators).
Proof.
  intros Hout.
  assert (∀ b, b ∈ out → (index b < job_count js)%nat) as Hidx.
  { intros b Hb. pose proof (schedule_jobs _ _ _ Hout) as Hperm.
    apply schedule_bins_Ok in Hout as (st & Hst & HI & ->).
    apply pack_loop_initial in Hst. fold (job_count js) in Hst.
    assert (0 < job_count js)%nat as Hpos.
    { unfold job_count. rewrite <- Hperm.
      destruct (elem_of_schedule _ st b HI Hb)
        as [(_ & _ & _ & Hlen) | [_ Hlen]];
        apply list_elem_of_split in Hb as (l1 & l2 & ->);
        rewrite bind_app, bind_cons, !length_app; lia. }
    destruct (elem_of_schedule _ st b HI Hb)
      as [((_ & Hlt) & _) | (((_ & Hlt) & _) & _)]; lia. }
  split_and!; [done | |].
  - unfold generations_used.
    rewrite <- (length_seq (job_count js) 0). apply submseteq_length.
    apply NoDup_submseteq; [apply NoDup_remove_dups |].
    intros g Hg.
    apply elem_of_remove_dups, list_elem_of_fmap in Hg as (b & -> & Hb).
    apply elem_of_seq. specialize (Hidx b Hb). lia.
  - intros Hcaps. pose proof (total_capacity_nonneg _ Hcaps) as Hcap.
    apply schedule_bins_Ok in Hout as (st & Hst & HI & ->).
    pose proof (pack_loop_jobs _ _ _ _ Hst) as Hjobs.
    rewrite initial_jobs in Hjobs. simpl in Hjobs.
    assert (total_demand js ≤
            Z.of_nat (next_index st) * total_capacity accelerators) as Hle.
    { rewrite <- sumZ_new_jobs, <- sumZ_has_instance.
      rewrite <- (sumZ_Permutation _ _ _ Hjobs). unfold all_jobs.
      rewrite sumZ_bind. fold bin_load.
      rewrite <- (pack_loop_weight _ _ _ _ Hst (initial_weight _)).
      by apply (load_le_weight accelerators). }
    destruct (decide (0 < job_count js)%nat) as [Hpos|Hzero].
    + pose proof (generations_used_ge st
                    (pack_loop_initial_used _ _ _ Hst Hpos)) as Hge.
      nia.
    + assert (job_count js = 0)%nat as Hnil by lia.
      unfold job_count in Hnil. apply nil_length_inv in Hnil.
      cut (total_demand js = 0); [nia |].
      by rewrite <- sumZ_new_jobs, <- sumZ_has_instance, Hnil.
Qed.

Lemma generations_bound_witness :
  let out := [mkBin 2 false 0 [mkJob "1" (Some (mkCircuit 3))] 0;
              mkBin 2 false 1 [mkJob "2" (Some (mkCircuit 3))] 0;
              mkBin 2 false 2 [mkJob "3" (Some (mkCircuit 3))] 0] in
  (∀ b, b ∈ out → (index b < 3)%nat) ∧ (generations_used out ≤ 3)%nat ∧
  9 ≤ Z.of_nat (generations_used out) * 5.
Proof.
  intros out.
  destruct (generations_bound [("a"%string, 5)] (circuits [3; 3; 3]) out)
    as (Hidx & Hgen & Hdemand); [reflexivity |].
  split; [exact Hidx |]. split; [exact Hgen |].
  apply Hdemand. simpl. constructor; [lia | constructor].
Defined.

(** C3 (as stated) fails: one machine of 5 qubits and three jobs of 3
    qubits use three generations, and the ceiling of 9 / 5 is 2. *)
Lemma generations_counterexample :
  let accelerators := [("a"%string, 5)] in
  let js := circuits [3; 3; 3] in
  ∃ out, schedule_bins accelerators js = Ok out ∧
         generations_used out = 3%nat ∧
         total_demand js = 9 ∧ total_capacity accelerators = 5 ∧
         ¬ (Z.of_nat (generations_used out) ≤
            (total_demand js + total_capacity accelerators - 1)
              `div` total_capacity accelerators).
Proof.
  simpl. eexists. split; [reflexivity |].
  split; [reflexivity |]. split; [reflexivity |]. split; [reflexivity |].
  vm_compute. intros Hle. by apply Hle.
Qed.

(** C7 (as amended): when an iteration opens a new generation, every open
    bin has less free capacity than the job needs.  In every iteration the
    job goes into a bin such that no open bin of an earlier generation had
    room for it, the open list stays in ascending order of generation, and
    the bins of the schedule are in ascending order of generation. *)
Theorem first_fit_generations accelerators js :
  (∀ pre job inst post st st',
     new_jobs js = pre ++ job :: post → instance job = Some inst →
     pack_loop accelerators pre (initial_state accelerators) = Ok st →
     assign accelerators job inst st = Ok st' →
     (next_index st' ≠ next_index st →
      Forall (λ b, capacity b < num_qubits inst) (open_bins st)) ∧
     (∃ b, (put job inst b ∈ open_bins st' ∨
            set_full (put job inst b) ∈ closed_bins st') ∧
           ∀ b', b' ∈ open_bins st → (index b' < index b)%nat →
                 capacity b' < num_qubits inst) ∧
     ascending (open_bins st')) ∧
  (∀ out, schedule_bins accelerators js = Ok out → ascending out).
Proof.
  split.
  - intros pre job inst post st st' _ Hjob Hst Hst'.
    assert (Inv accelerators st) as HI
      by (eapply pack_loop_Inv; [apply Inv_initial | done]).
    pose proof (assign_Inv _ _ _ _ _ Hjob HI Hst') as [_ _ Hasc'].
    apply assign_Ok in Hst' as [opened l1 b l2 Hsplit Hnew Hl1 Hfit ->].
    split_and!; [| | done].
    + destruct opened; [auto |]. simpl. by case_bool_decide.
    + exists b. split.
      * simpl. case_bool_decide; simpl; [right | left];
          rewrite elem_of_app, elem_of_cons; auto.
      * intros b' Hb' Hlt. destruct opened.
        { specialize (Hnew eq_refl). rewrite Forall_forall in Hnew. auto. }
        destruct HI as [_ _ Hasc]. rewrite Hsplit in Hb', Hasc.
        apply elem_of_app in Hb' as [Hb' | Hb'].
        { rewrite Forall_forall in Hl1. auto. }
        unfold ascending in Hasc. rewrite fmap_app in Hasc.
        apply StronglySorted_app in Hasc as (_ & _ & Hasc).
        rewrite fmap_cons in Hasc.
        apply StronglySorted_cons in Hasc as [Hle _].
        apply elem_of_cons in Hb' as [-> | Hb']; [lia |].
        rewrite Forall_forall in Hle.
        specialize (Hle (index b') (list_elem_of_fmap_2 index _ _ Hb')). lia.
  - intros out (st & _ & _ & ->)%schedule_bins_Ok.
    apply sorted_by_index_ascending.
Qed.

Lemma first_fit_generations_witness :
  let accelerators := [("a"%string, 4)] in
  let job := mkJob "2" (Some (mkCircuit 3)) in
  let st := mkState [mkBin 1 false 0 [mkJob "1" (Some (mkCircuit 3))] 0] [] 1 in
  let st' := mkState [mkBin 1 false 0 [mkJob "1" (Some (mkCircuit 3))] 0;
                      mkBin 1 false 1 [job] 0] [] 2 in
  (next_index st' ≠ next_index st →
   Forall (λ b, capacity b < 3) (open_bins st)) ∧
  (∃ b, (put job (mkCircuit 3) b ∈ open_bins st' ∨
         set_full (put job (mkCircuit 3) b) ∈ closed_bins st') ∧
        ∀ b', b' ∈ open_bins st → (index b' < index b)%nat → capacity b' < 3) ∧
  ascending (open_bins st').
Proof.
  intros accelerators job st st'.
  apply (proj1 (first_fit_generations accelerators (circuits [3; 3; 1]))
           [mkJob "1" (Some (mkCircuit 3))] job (mkCircuit 3)
           [mkJob "3" (Some (mkCircuit 1))] st st');
    reflexivity.
Defined.

(** C7 (as stated) fails in its consequence: with one machine of 4 qubits
    and jobs of 3, 3 and 1 qubits, job 2 opens generation 1 and job 3,
    assigned after it, goes back into the bin of generation 0. *)
Lemma assignment_order_counterexample :
  ∃ out b2 b3,
    schedule_bins [("a"%string, 4)] (circuits [3; 3; 1]) = Ok out ∧
    b2 ∈ out ∧ b3 ∈ out ∧
    mkJob "2" (Some (mkCircuit 3)) ∈ jobs b2 ∧
    mkJob "3" (Some (mkCircuit 1)) ∈ jobs b3 ∧
    (index b3 < index b2)%nat.
Proof.
  exists [mkBin 0 true 0 [mkJob "1" (Some (mkCircuit 3));
                          mkJob "3" (Some (mkCircuit 1))] 0;
          mkBin 1 false 1 [mkJob "2" (Some (mkCircuit 3))] 0].
  eexists _, _. split; [reflexivity |].
  split; [apply list_elem_of_further, list_elem_of_here |].
  split; [apply list_elem_of_here |]. simpl.
  split; [apply list_elem_of_here |].
  split; [apply list_elem_of_further, list_elem_of_here | lia].
Qed.

(** ** Input that the specification calls malformed *)

Lemma pack_loop_no_machines js :
  (Exists has_instance js →
   pack_loop [] js (initial_state []) = Raise AssertionError) ∧
  (¬ Exists has_instance js →
   pack_loop [] js (initial_state []) = Ok (initial_state [])).
Proof.
  induction js as [|job js [IH1 IH2]].
  - split; [by intros ?%Exists_nil | done].
  - rewrite !Exists_cons. simpl.
    destruct (instance job) as [inst|] eqn:Hjob.
    + split; [done |]. intros []. left. unfold has_instance. by rewrite Hjob.
    + split.
      * intros [Hj | He]; [| by apply IH1].
        unfold has_instance in Hj. rewrite Hjob in Hj. by destruct Hj.
      * intros Hno. apply IH2. intros He. apply Hno. by right.
Qed.

Lemma bin_load_nonneg b :
  Forall (λ job, 0 ≤ job_qubits job) (jobs b) → 0 ≤ bin_load b.
Proof.
  unfold bin_load, sumZ. induction 1 as [|job l Hjob _ IH]; simpl; lia.
Qed.

(** A bin of the schedule is not overfull. *)
Lemma schedule_bin_free accelerators js out b :
  schedule_bins accelerators js = Ok out → b ∈ out →
  accelerators.*2 !! qpu b = Some (capacity b + bin_load b) ∧ 0 ≤ capacity b.
Proof.
  intros (st & _ & HI & ->)%schedule_bins_Ok Hb.
  destruct (elem_of_schedule _ st b HI Hb)
    as [((Hn & _) & _ & Hcap & _) | (((Hn & _) & _ & Hcap) & Hlen)].
  - split; [done | lia].
  - specialize (Hcap Hlen). split; [done | lia].
Qed.

(** C2 (as amended): the call does not check its input.  The job
    identifiers are made from the positions in the list and are pairwise
    distinct.  With no machines the packer fails, by the assertion in the
    loop, exactly when the list has an entry with a circuit: the entries
    before the first such entry are skipped, the iteration for that entry
    raises, and the call fails with it.  When no entry has a circuit the
    packer gives no bins and no records, and the call goes on to the time
    dictionaries with them.  A machine of negative capacity is accepted; it
    gets no job as long as the jobs need a nonnegative number of qubits. *)
Theorem no_entry_validation accelerators js :
  NoDup (name <$> new_jobs js) ∧
  (schedule_bins [] js = Raise AssertionError ↔ ∃ inst, Some inst ∈ js) ∧
  (∀ pre inst post,
     js = pre ++ Some inst :: post → (∀ inst', Some inst' ∉ pre) →
     ∃ rest,
       new_jobs js =
         new_jobs pre ++
         mkJob (pretty (length pre + 1)%nat) (Some inst) :: rest ∧
       pack_loop [] (new_jobs pre) (initial_state []) = Ok (initial_state []) ∧
       assign [] (mkJob (pretty (length pre + 1)%nat) (Some inst)) inst
              (initial_state []) = Raise AssertionError) ∧
  ((∃ inst, Some inst ∈ js) →
   ∀ `{Time T} (process_times : list (list T))
     (setup_times : list (list (list T))),
     generate_baseline_schedule js [] process_times setup_times
       = Raise AssertionError) ∧
  ((¬ ∃ inst, Some inst ∈ js) →
   schedule_bins [] js = Ok [] ∧
   ∀ `{Time T} (process_times : list (list T))
     (setup_times : list (list (list T))),
     combined_jobs (T := T) [] [] = Ok [] ∧
     generate_baseline_schedule js [] process_times setup_times
       = calculate_result_from_baseline [] process_times setup_times js []) ∧
  ((∀ inst, Some inst ∈ js → 0 ≤ num_qubits inst) →
   ∀ out b cap, schedule_bins accelerators js = Ok out → b ∈ out →
                accelerators.*2 !! qpu b = Some cap → 0 ≤ cap).
Proof.
  assert (∀ l, Exists has_instance (new_jobs l) ↔ ∃ inst, Some inst ∈ l)
    as Hex.
  { intros l. rewrite Exists_exists. split.
    - intros (job & Hin & inst & Hinst). exists inst.
      apply new_jobs_instance. by exists job.
    - intros (inst & (job & Hin & Hinst)%new_jobs_instance).
      exists job. split; [done |]. by exists inst. }
  assert ((∃ inst, Some inst ∈ js) → schedule_bins [] js = Raise AssertionError)
    as Hfail.
  { intros He%Hex. unfold schedule_bins.
    by rewrite (proj1 (pack_loop_no_machines (new_jobs js)) He). }
  assert ((¬ ∃ inst, Some inst ∈ js) → schedule_bins [] js = Ok []) as Hempty.
  { intros Hnone. unfold schedule_bins.
    rewrite (proj2 (pack_loop_no_machines (new_jobs js))); [done |].
    by rewrite Hex. }
  split_and!.
  - apply new_jobs_NoDup.
  - split; [| done]. intros Hraise.
    destruct (decide (Exists has_instance (new_jobs js))) as [He|He].
    + by apply Hex.
    + rewrite Hempty in Hraise; [done |]. by rewrite <- Hex.
  - intros pre inst post -> Hpre. eexists. split_and!.
    + rewrite new_jobs_app. f_equal. rewrite imap_cons. f_equal.
      by rewrite Nat.add_0_r.
    + apply pack_loop_no_machines. rewrite Hex. intros [inst' Hin].
      by apply (Hpre inst').
    + done.
  - intros He T HT process_times setup_times.
    unfold generate_baseline_schedule. by rewrite (Hfail He).
  - intros Hnone. split; [by apply Hempty |].
    intros T HT process_times setup_times. split; [done |].
    unfold generate_baseline_schedule. by rewrite (Hempty Hnone).
  - intros Hnonneg out b cap Hout Hb Hcap.
    destruct (schedule_bin_free _ _ _ _ Hout Hb) as (Hnom & Hfree).
    assert (cap = capacity b + bin_load b) as -> by congruence.
    cut (0 ≤ bin_load b); [lia |]. apply bin_load_nonneg, Forall_forall.
    intros job Hjob.
    assert (job ∈ out ≫= jobs) as Hin by (apply list_elem_of_bind; eauto).
    rewrite (schedule_jobs _ _ _ Hout) in Hin.
    apply list_elem_of_filter in Hin as [[inst Hinst] Hin].
    unfold job_qubits. rewrite Hinst. simpl. apply Hnonneg.
    apply new_jobs_instance. by exists job.
Qed.

Lemma no_entry_validation_witness :
  generate_baseline_schedule (T := Z) [None; Some (mkCircuit 3)] [] [] []
    = Raise AssertionError ∧
  schedule_bins [] [None; None] = Ok [] ∧
  0 ≤ 5.
Proof.
  split; [| split].
  - apply (no_entry_validation [] [None; Some (mkCircuit 3)]).
    exists (mkCircuit 3). apply list_elem_of_further, list_elem_of_here.
  - apply (no_entry_validation [] [None; None]).
    intros [inst Hin]. apply list_elem_of_In in Hin. simpl in Hin.
    by destruct Hin as [? | [? | []]].
  - apply (proj2 (proj2 (proj2 (proj2 (proj2 (no_entry_validation
             [("a"%string, -1); ("b"%string, 5)] (circuits [3]))))))
           ) with (out := [mkBin 2 false 0 [mkJob "1" (Some (mkCircuit 3))] 1])
                  (b := mkBin 2 false 0 [mkJob "1" (Some (mkCircuit 3))] 1).
    + intros inst Hin. apply list_elem_of_In in Hin. simpl in Hin.
      destruct Hin as [[= <-] | []]. simpl. lia.
    + reflexivity.
    + apply list_elem_of_here.
    + reflexivity.
Defined.

(** C2 (as stated) fails: a machine of negative capacity is not rejected,
    the job is packed on the other machine; and with no machines and no
    jobs nothing is rejected either: the packer gives no bins and no
    records. *)
Lemma entry_validation_counterexample :
  let accelerators := [("a"%string, -1); ("b"%string, 5)] in
  (∃ cap, cap ∈ accelerators.*2 ∧ cap < 0) ∧
  schedule_bins accelerators (circuits [3]) =
    Ok [mkBin 2 false 0 [mkJob "1" (Some (mkCircuit 3))] 1] ∧
  combined_jobs (T := Z) accelerators
    [mkBin 2 false 0 [mkJob "1" (Some (mkCircuit 3))] 1] =
    Ok [mkInfo "1" "b"%string 0 (-1)] ∧
  schedule_bins [] [] = Ok [] ∧
  combined_jobs (T := Z) [] [] = Ok [].
Proof.
  simpl. split_and!; try reflexivity.
  exists (-1). split; [apply list_elem_of_here | lia].
Qed.

(** ** The time dictionaries *)

Section dictionaries.
Context {V : Type}.

Lemma makeDict1_other (headers : list string) (array : list V)
    (d : gmap string V) h :
  h ∉ headers →
  foldl (λ d kv, <[kv.1 := kv.2]> d) d (zip headers array) !! h = d !! h.
Proof.
  revert array d. induction headers as [|h0 headers IH]; intros array d Hh;
    [done |].
  destruct array as [|a array]; [done |]. simpl.
  apply not_elem_of_cons in Hh as [Hne Hh].
  rewrite IH by done. by rewrite lookup_insert_ne.
Qed.

Lemma makeDict1_fold (headers : list string) (array : list V)
    (d : gmap string V) k h :
  NoDup headers → headers !! k = Some h → d !! h = None →
  foldl (λ d kv, <[kv.1 := kv.2]> d) d (zip headers array) !! h
    = array !! k.
Proof.
  intros Hnd. revert array d k.
  induction Hnd as [|h0 headers Hh0 Hnd IH]; intros array d k Hk Hd; [done |].
  destruct array as [|a array]; [by rewrite lookup_nil |]. simpl.
  destruct k as [|k]; simpl in *.
  - injection Hk as ->. rewrite makeDict1_other by done.
    by rewrite lookup_insert_eq.
  - apply IH; [done |]. rewrite lookup_insert_ne; [done |].
    intros ->. apply Hh0. by eapply list_elem_of_lookup_2.
Qed.

(** An entry of the last level is the value at the position of its
    header, and there is none beyond the end of the values. *)
Lemma makeDict1_lookup (headers : list string) (array : list V) k h :
  NoDup headers → headers !! k = Some h →
  makeDict1 headers array !! h = array !! k.
Proof. intros Hnd Hk. by apply makeDict1_fold. Qed.

Context {A : Type}.
Implicit Types (sub : A → result V) (array : list A)
  (d : gmap string V) (headers : list string).

Lemma makeDict_level_other sub i headers array d d' h :
  makeDict_level sub i headers array d = Ok d' → h ∉ headers →
  d' !! h = d !! h.
Proof.
  revert i d. induction headers as [|h0 headers IH]; intros i d; simpl.
  - by intros [= ->].
  - destruct (array !! i) as [row|]; [| done].
    destruct (sub row) as [v|e]; simpl; [| done].
    intros Hd' [Hne Hh]%not_elem_of_cons.
    rewrite (IH _ _ Hd' Hh). by rewrite lookup_insert_ne.
Qed.

Lemma makeDict_level_lookup sub i headers array d d' k h :
  NoDup headers → makeDict_level sub i headers array d = Ok d' →
  headers !! k = Some h →
  ∃ row v, array !! (i + k)%nat = Some row ∧ sub row = Ok v ∧
           d' !! h = Some v.
Proof.
  intros Hnd. revert i d k.
  induction Hnd as [|h0 headers Hh0 Hnd IH]; intros i d k; simpl; [done |].
  destruct (array !! i) as [row|] eqn:Hrow; [| done].
  destruct (sub row) as [v|e] eqn:Hv; simpl; [| done].
  intros Hd'. destruct k as [|k]; simpl.
  - intros [= <-]. exists row, v. rewrite Nat.add_0_r.
    split_and!; [done | done |].
    rewrite (makeDict_level_other _ _ _ _ _ _ _ Hd' Hh0).
    by rewrite lookup_insert_eq.
  - intros Hk. destruct (IH _ _ _ Hd' Hk) as (row' & v' & Hrow' & Hv' & Hl).
    exists row', v'. by rewrite <- Nat.add_succ_comm.
Qed.

Lemma makeDict_level_Ok sub i headers array d :
  (∃ d', makeDict_level sub i headers array d = Ok d') ↔
  ∀ k, (k < length headers)%nat →
       ∃ row v, array !! (i + k)%nat = Some row ∧ sub row = Ok v.
Proof.
  revert i d. induction headers as [|h0 headers IH]; intros i d; simpl.
  - split; [intros _ k ?; lia | by eexists].
  - destruct (array !! i) as [row|] eqn:Hrow.
    + destruct (sub row) as [v|e] eqn:Hv; simpl.
      * rewrite IH. split.
        -- intros Hall [|k] Hk.
           ++ exists row, v. by rewrite Nat.add_0_r.
           ++ rewrite <- Nat.add_succ_comm. apply Hall. lia.
        -- intros Hall k Hk. rewrite Nat.add_succ_comm. apply Hall. lia.
      * split; [by intros [d' ?] |]. intros Hall.
        destruct (Hall 0%nat) as (row' & v & Hrow' & Hv'); [lia |].
        rewrite Nat.add_0_r in Hrow'. congruence.
    + split; [by intros [d' ?] |]. intros Hall.
      destruct (Hall 0%nat) as (row' & v & Hrow' & _); [lia |].
      rewrite Nat.add_0_r in Hrow'. congruence.
Qed.

Lemma makeDict_level_Raise sub i headers array d e :
  (∀ row e', sub row = Raise e' → e' = IndexError) →
  makeDict_level sub i headers array d = Raise e → e = IndexError.
Proof.
  intros Hsub. revert i d.
  induction headers as [|h0 headers IH]; intros i d; simpl; [done |].
  destruct (array !! i) as [row|]; [| by intros [= <-]].
  destruct (sub row) as [v|e'] eqn:Hv; simpl; [apply IH |].
  intros [= <-]. by eapply Hsub.
Qed.
End dictionaries.

Section matrices.
Context {V : Type}.

(** The dictionary of a matrix is built exactly when the matrix has a row
    for every header of the first list. *)
Lemma makeDict2_Ok (h0 h1 : list string) (array : list (list V)) :
  (∃ p, makeDict2 h0 h1 array = Ok p) ↔ (length h0 ≤ length array)%nat.
Proof.
  unfold makeDict2. rewrite makeDict_level_Ok. split.
  - intros Hall. destruct (length h0) as [|n] eqn:Hlen; [lia |].
    destruct (Hall n) as (row & _ & Hrow%lookup_lt_Some & _); simpl in *; lia.
  - intros Hle k Hk.
    destruct (lookup_lt_is_Some_2 array k) as [row Hrow]; [lia |].
    by exists row, (makeDict1 h1 row).
Qed.

Lemma makeDict2_Raise (h0 h1 : list string) (array : list (list V)) e :
  makeDict2 h0 h1 array = Raise e → e = IndexError.
Proof. apply makeDict_level_Raise. by intros row e'. Qed.

Lemma makeDict2_lookup (h0 h1 : list string) (array : list (list V))
    p i k a m :
  NoDup h0 → NoDup h1 → makeDict2 h0 h1 array = Ok p →
  h0 !! i = Some a → h1 !! k = Some m →
  p !! a ≫= (λ row, row !! m) = array !! i ≫= (λ row, row !! k).
Proof.
  intros Hnd0 Hnd1 Hp Hi Hk.
  destruct (makeDict_level_lookup _ _ _ _ _ _ _ _ Hnd0 Hp Hi)
    as (row & v & Hrow & [= <-] & ->).
  simpl in Hrow. rewrite Hrow. simpl. by apply makeDict1_lookup.
Qed.

(** The dictionary of a matrix of matrices is built exactly when there is
    a row for every header of the first list and every such row has a row
    for every header of the second list. *)
Lemma makeDict3_Ok (h0 h1 h2 : list string) (array : list (list (list V))) :
  (∃ s, makeDict3 h0 h1 h2 array = Ok s) ↔
  ∀ i, (i < length h0)%nat →
       ∃ rows, array !! i = Some rows ∧ (length h1 ≤ length rows)%nat.
Proof.
  unfold makeDict3. rewrite makeDict_level_Ok. split.
  - intros Hall i Hi. destruct (Hall i Hi) as (rows & v & Hrows & Hv).
    exists rows. split; [done |]. apply (makeDict2_Ok h1 h2). by exists v.
  - intros Hall i Hi. destruct (Hall i Hi) as (rows & Hrows & Hlen).
    apply (makeDict2_Ok h1 h2) in Hlen as [v Hv]. by exists rows, v.
Qed.

Lemma makeDict3_Raise (h0 h1 h2 : list string)
    (array : list (list (list V))) e :
  makeDict3 h0 h1 h2 array = Raise e → e = IndexError.
Proof. apply makeDict_level_Raise. intros row e'. apply makeDict2_Raise. Qed.

Lemma makeDict3_lookup (h0 h1 h2 : list string)
    (array : list (list (list V))) s i j k a b m :
  NoDup h0 → NoDup h1 → NoDup h2 → makeDict3 h0 h1 h2 array = Ok s →
  h0 !! i = Some a → h1 !! j = Some b → h2 !! k = Some m →
  s !! a ≫= (λ d, d !! b ≫= λ row, row !! m) =
  array !! i ≫= (λ rows, rows !! j ≫= λ row, row !! k).
Proof.
  intros Hnd0 Hnd1 Hnd2 Hs Hi Hj Hk.
  destruct (makeDict_level_lookup _ _ _ _ _ _ _ _ Hnd0 Hs Hi)
    as (rows & v & Hrows & Hv & ->).
  simpl in Hrows. rewrite Hrows. simpl.
  by apply (makeDict2_lookup h1 h2 rows v j k b m).
Qed.
End matrices.

Lemma lp_jobs_names js : tail (lp_jobs js) = name <$> new_jobs js.
Proof.
  unfold lp_jobs, new_jobs. simpl. rewrite fmap_imap.
  by apply imap_ext.
Qed.

Lemma lp_jobs_length js : length (lp_jobs js) = S (length js).
Proof. unfold lp_jobs. simpl. by rewrite length_imap. Qed.

Lemma lp_jobs_NoDup js : NoDup (lp_jobs js).
Proof.
  change (NoDup ("0"%string :: tail (lp_jobs js))).
  rewrite lp_jobs_names. constructor; [| apply new_jobs_NoDup].
  intros (job & Hname & (i & c & _ & ->)%new_jobs_elem_of)%list_elem_of_fmap.
  simpl in Hname. change "0"%string with (pretty 0%nat) in Hname.
  apply (inj pretty) in Hname. lia.
Qed.

(** C9 (as amended): only an entry missing at the end of a row is read as
    zero.  With distinct machine names, the dictionary of the process times
    is built exactly when the matrix has a row for every job, the
    dictionary of the setup times exactly when the matrix has a row for
    ["0"] and every job and each of these rows has a row for ["0"] and
    every job; otherwise [pulp.makeDict] raises [IndexError], and after a
    successful packing so does the call.  In the dictionaries that are
    built, the entry for the job key at position [i] (and, for setup times,
    the job key at position [j]) and the machine at position [k] is the
    entry of the matrix at these positions when the row is that long, and
    there is no entry otherwise, so that the key reads as zero. *)
Theorem missing_entries `{Time T} js accelerators
    (process_times : list (list T)) (setup_times : list (list (list T))) :
  NoDup (machines accelerators) →
  ((∃ p, makeDict2 (tail (lp_jobs js)) (machines accelerators) process_times
           = Ok p) ↔
   (length js ≤ length process_times)%nat) ∧
  ((∃ s, makeDict3 (lp_jobs js) (lp_jobs js) (machines accelerators)
                   setup_times = Ok s) ↔
   ∀ i, (i ≤ length js)%nat →
        ∃ rows, setup_times !! i = Some rows ∧
                (length js < length rows)%nat) ∧
  (∀ e, makeDict2 (tail (lp_jobs js)) (machines accelerators) process_times
          = Raise e ∨
        makeDict3 (lp_jobs js) (lp_jobs js) (machines accelerators)
                  setup_times = Raise e →
        e = IndexError) ∧
  (∀ out,
     schedule_bins accelerators js = Ok out →
     ((length process_times < length js)%nat ∨
      (∃ i, (i ≤ length js)%nat ∧
            ∀ rows, setup_times !! i = Some rows →
                    (length rows ≤ length js)%nat)) →
     generate_baseline_schedule js accelerators process_times setup_times
       = Raise IndexError) ∧
  (∀ p i k job m,
     makeDict2 (tail (lp_jobs js)) (machines accelerators) process_times
       = Ok p →
     tail (lp_jobs js) !! i = Some job →
     machines accelerators !! k = Some m →
     p !! job ≫= (λ row, row !! m) =
       process_times !! i ≫= (λ row, row !! k) ∧
     p_time p job m =
       default t_zero (process_times !! i ≫= λ row, row !! k)) ∧
  (∀ s i j k pred succ m,
     makeDict3 (lp_jobs js) (lp_jobs js) (machines accelerators) setup_times
       = Ok s →
     lp_jobs js !! i = Some pred → lp_jobs js !! j = Some succ →
     machines accelerators !! k = Some m →
     s !! pred ≫= (λ d, d !! succ ≫= λ row, row !! m) =
       setup_times !! i ≫= (λ rows, rows !! j ≫= λ row, row !! k) ∧
     s_time s pred succ m =
       default t_zero
         (setup_times !! i ≫= λ rows, rows !! j ≫= λ row, row !! k)).
Proof.
  intros Hms.
  assert (length (tail (lp_jobs js)) = length js) as Hlen
    by (unfold lp_jobs; simpl; by rewrite length_imap).
  assert (NoDup (tail (lp_jobs js))) as Htl
    by (rewrite lp_jobs_names; apply new_jobs_NoDup).
  pose proof (lp_jobs_NoDup js) as Hlp.
  assert ((∃ s, makeDict3 (lp_jobs js) (lp_jobs js) (machines accelerators)
                          setup_times = Ok s) ↔
          ∀ i, (i ≤ length js)%nat →
               ∃ rows, setup_times !! i = Some rows ∧
                       (length js < length rows)%nat) as Hsetup.
  { rewrite makeDict3_Ok, lp_jobs_length. split.
    - intros Hall i Hi. destruct (Hall i) as (rows & ? & ?); [lia |].
      exists rows. split; [done | lia].
    - intros Hall i Hi. destruct (Hall i) as (rows & ? & ?); [lia |].
      exists rows. split; [done | lia]. }
  split_and!.
  - by rewrite makeDict2_Ok, Hlen.
  - done.
  - intros e [He | He]; [by eapply makeDict2_Raise | by eapply makeDict3_Raise].
  - intros out Hout Hshort.
    destruct (schedule_records (T := T) _ _ _ Hout) as [rs Hrs].
    unfold generate_baseline_schedule. rewrite Hout. simpl. rewrite Hrs. simpl.
    unfold calculate_result_from_baseline.
    destruct (makeDict2 _ _ process_times) as [p|e] eqn:Hp; simpl.
    + destruct (makeDict3 _ _ _ setup_times) as [s|e] eqn:Hs; simpl.
      * exfalso. destruct Hshort as [Hlt | (i & Hi & Hrows)].
        -- assert (length js ≤ length process_times)%nat; [| lia].
           rewrite <- Hlen. apply (makeDict2_Ok _ (machines accelerators)).
           by exists p.
        -- destruct (proj1 Hsetup (ex_intro _ s eq_refl) i Hi)
             as (rows & Hi' & Hlt).
           specialize (Hrows rows Hi'). lia.
      * by rewrite (makeDict3_Raise _ _ _ _ _ Hs).
    + by rewrite (makeDict2_Raise _ _ _ _ Hp).
  - intros p i k job m Hp Hi Hk.
    pose proof (makeDict2_lookup _ _ _ _ _ _ _ _ Htl Hms Hp Hi Hk) as Heq.
    split; [done |]. unfold p_time. by rewrite Heq.
  - intros s i j k pred succ m Hs Hi Hj Hk.
    pose proof (makeDict3_lookup _ _ _ _ _ _ _ _ _ _ _ Hlp Hlp Hms Hs Hi Hj Hk)
      as Heq.
    split; [done |]. unfold s_time. by rewrite Heq.
Qed.

Lemma missing_entries_witness :
  let p : gmap string (gmap string Z) :=
    {[ "1"%string := {[ "a"%string := 7 ]}; "2"%string := ∅ ]} in
  let row : gmap string (gmap string Z) :=
    {[ "0"%string := ∅; "1"%string := {[ "a"%string := 5 ]};
       "2"%string := ∅ ]} in
  let s : gmap string (gmap string (gmap string Z)) :=
    {[ "0"%string := row; "1"%string := row; "2"%string := row ]} in
  (p !! "2"%string ≫= (λ row, row !! "a"%string) = None ∧
   p_time p "2" "a" = 0) ∧
  (s !! "0"%string ≫= (λ d, d !! "2"%string ≫= λ row, row !! "a"%string)
     = None ∧
   s_time s "0" "2" "a" = 0).
Proof.
  intros p row s.
  assert (NoDup (machines [("a"%string, 4)])) as Hms
    by (apply NoDup_singleton).
  destruct (missing_entries (T := Z) (circuits [3; 1]) [("a"%string, 4)]
              [[7]; []] (replicate 3 [[]; [5]; []]) Hms)
    as (_ & _ & _ & _ & Hp & Hs).
  split.
  - exact (Hp p 1%nat 0%nat "2"%string "a"%string eq_refl eq_refl eq_refl).
  - exact (Hs s 0%nat 2%nat 0%nat "0"%string "2"%string "a"%string
              eq_refl eq_refl eq_refl eq_refl).
Defined.

(** C9 (as stated) fails: the keys [("2", "a")] of the process times and
    [("0", "1", "a")] of the setup times are absent because their rows are,
    and the call raises [IndexError] after the packing; so does the call
    without jobs, machines and setup times, for the row of ["0"]. *)
Lemma missing_row_counterexample :
  let accelerators := [("a"%string, 4)] in
  let square := replicate 3 (replicate 3 [0]) in
  schedule_bins accelerators (circuits [3; 1]) =
    Ok [mkBin 0 true 0 [mkJob "1" (Some (mkCircuit 3));
                        mkJob "2" (Some (mkCircuit 1))] 0] ∧
  [[7]] !! 1%nat ≫= (λ row : list Z, row !! 0%nat) = None ∧
  generate_baseline_schedule (T := Z) (circuits [3; 1]) accelerators
    [[7]] square = Raise IndexError ∧
  ([] : list (list (list Z))) !! 0%nat
    ≫= (λ rows, rows !! 1%nat ≫= λ row, row !! 0%nat) = None ∧
  generate_baseline_schedule (T := Z) (circuits [3; 1]) accelerators
    [[7]; [2]] [] = Raise IndexError ∧
  generate_baseline_schedule (T := Z) [] [] [] [] = Raise IndexError.
Proof. simpl. split_and!; reflexivity. Qed.

(** * Further properties of the code *)

(** ** The search for a bin *)

(** X1: [find_fitting_bin] gives the position of the first bin with room
    for the job, and [None] exactly when no bin has room. *)
Theorem find_fitting_bin_least inst bins :
  (∀ i, find_fitting_bin inst bins = Some i ↔
        ∃ b, bins !! i = Some b ∧ num_qubits inst ≤ capacity b ∧
             ∀ j b', (j < i)%nat → bins !! j = Some b' →
                     capacity b' < num_qubits inst) ∧
  (find_fitting_bin inst bins = None ↔
   ∀ j b', bins !! j = Some b' → capacity b' < num_qubits inst).
Proof.
  split.
  - induction bins as [|a bins IH]; intros i; simpl.
    { split; [done |]. by intros (b & Hb & _). }
    case_bool_decide as Ha.
    + split.
      * intros [= <-]. exists a. split; [done |]. split; [lia |].
        intros j b' Hj. lia.
      * intros (b & Hb & Hfit & Hmin). destruct i as [|i]; [done |].
        specialize (Hmin 0%nat a (Nat.lt_0_succ i) eq_refl). lia.
    + destruct i as [|i].
      * split.
        -- by destruct (find_fitting_bin inst bins).
        -- intros (b & [= <-] & Hfit & _). lia.
      * split.
        -- intros Hf.
           destruct (find_fitting_bin inst bins) as [k|] eqn:Hk; [| done].
           injection Hf as ->.
           destruct (proj1 (IH i) eq_refl) as (b & Hb & Hfit & Hmin).
           exists b. split; [done |]. split; [done |].
           intros [|j] b' Hj; simpl; [intros [= <-]; lia |].
           intros Hb'. apply (Hmin j); [lia | done].
        -- intros (b & Hb & Hfit & Hmin). simpl in Hb.
           assert (find_fitting_bin inst bins = Some i) as ->; [| done].
           apply IH. exists b. split; [done |]. split; [done |].
           intros j b' Hj Hb'. apply (Hmin (S j)); [lia | done].
  - rewrite find_fitting_bin_None, Forall_forall. split.
    + intros Hall j b' Hb'. apply Hall. by eapply list_elem_of_lookup_2.
    + intros Hall b' [j Hb']%list_elem_of_lookup. by eapply Hall.
Qed.

(** ** Schedules without bins and bins without jobs *)

Lemma nonempty_bins_length (l : list Bin) :
  Forall (λ b, (0 < length (jobs b))%nat) l →
  (length l ≤ length (l ≫= jobs))%nat.
Proof.
  induction 1 as [|b l Hb _ IH]; [done |].
  rewrite bind_cons, length_app. simpl. lia.
Qed.

Lemma fresh_bins_nonempty accelerators gen :
  filter (λ b, (0 < length (jobs b))%nat) (fresh_bins accelerators gen) = [].
Proof.
  assert (Forall (λ b, jobs b = []) (fresh_bins accelerators gen)) as Hall.
  { apply Forall_forall. by intros b (i & cap & _ & ->)%elem_of_fresh_bins. }
  induction Hall as [|b l Hb _ IH]; [done |].
  rewrite filter_cons, IH, decide_False; [done |]. rewrite Hb. simpl. lia.
Qed.

(** X2: whatever the machines are, a job list without any circuit gives
    the schedule without bins, and a call that succeeds gives the schedule
    without bins only for such a list. *)
Theorem empty_schedule accelerators js :
  (job_count js = 0%nat → schedule_bins accelerators js = Ok []) ∧
  (schedule_bins accelerators js = Ok [] → job_count js = 0%nat).
Proof.
  split.
  - unfold job_count, schedule_bins. intros Hnil%nil_length_inv.
    rewrite pack_loop_skip, Hnil. simpl. unfold close_all. simpl.
    by rewrite fresh_bins_nonempty.
  - intros Hout%schedule_jobs. unfold job_count. by rewrite <- Hout.
Qed.

Lemma empty_schedule_witness :
  schedule_bins [("a"%string, 4)] [None; None] = Ok [].
Proof.
  apply (empty_schedule [("a"%string, 4)] [None; None]). reflexivity.
Defined.

(** X3: no bin of the schedule is without a job, so that the schedule has
    at most as many bins as the list has jobs with a circuit. *)
Theorem no_empty_bins accelerators js out :
  schedule_bins accelerators js = Ok out →
  Forall (λ b, jobs b ≠ []) out ∧ (length out ≤ job_count js)%nat.
Proof.
  intros Hout. pose proof (schedule_jobs _ _ _ Hout) as Hperm.
  apply schedule_bins_Ok in Hout as (st & _ & HI & ->).
  assert (Forall (λ b, (0 < length (jobs b))%nat)
            (sorted_by_index (close_all st))) as Hall.
  { apply Forall_forall. intros b Hb.
    by destruct (elem_of_schedule _ st b HI Hb)
      as [(_ & _ & _ & Hlen) | [_ Hlen]]. }
  split.
  - eapply Forall_impl; [exact Hall |]. intros b Hb Hnil.
    simpl in Hb. rewrite Hnil in Hb. simpl in Hb. lia.
  - unfold job_count. rewrite <- Hperm. by apply nonempty_bins_length.
Qed.

Lemma no_empty_bins_witness :
  let out := [mkBin 1 false 0 [mkJob "1" (Some (mkCircuit 3))] 0;
              mkBin 1 false 0 [mkJob "2" (Some (mkCircuit 3))] 1;
              mkBin 1 false 1 [mkJob "3" (Some (mkCircuit 3))] 0] in
  Forall (λ b, jobs b ≠ []) out ∧ (length out ≤ 3)%nat.
Proof.
  intros out.
  apply (no_empty_bins [("m0"%string, 4); ("m1"%string, 4)]
           (circuits [3; 3; 3]) out).
  reflexivity.
Defined.

(** ** One bin for a machine in a generation *)

Section slots.
Variable accelerators : accelerators_t.

Lemma fresh_bins_slots gen :
  slot <$> fresh_bins accelerators gen =
  (λ i, (gen, i)) <$> seq 0 (length accelerators).
Proof.
  apply list_eq; intros i. unfold fresh_bins.
  rewrite !list_lookup_fmap, list_lookup_imap.
  destruct (decide (i < length accelerators)%nat) as [Hi|Hi].
  - rewrite lookup_seq_lt by done.
    destruct (lookup_lt_is_Some_2 (accelerators.*2) i) as [c ->]; [| done].
    by rewrite length_fmap.
  - rewrite lookup_seq_ge by lia.
    rewrite (lookup_ge_None_2 (accelerators.*2)); [done |].
    rewrite length_fmap. lia.
Qed.

Lemma fresh_bins_slots_NoDup gen :
  NoDup (slot <$> fresh_bins accelerators gen).
Proof.
  rewrite fresh_bins_slots. apply NoDup_fmap_2; [| apply NoDup_seq].
  by intros i j [= ->].
Qed.

(** An iteration keeps the slots, apart from those of a new generation. *)
Lemma placement_slots job inst st st' :
  placement accelerators job inst st st' →
  ∃ opened : bool,
    slot <$> (closed_bins st' ++ open_bins st') ≡ₚ
    (slot <$> (closed_bins st ++ open_bins st)) ++
    (if opened then slot <$> fresh_bins accelerators (next_index st) else []).
Proof.
  intros [opened l1 b l2 Hsplit _ _ _ ->]. exists opened.
  assert ((slot <$> l1) ++ slot b :: (slot <$> l2) =
          (slot <$> open_bins st) ++
          (if opened then slot <$> fresh_bins accelerators (next_index st)
           else [])) as Hopen.
  { change (slot b :: (slot <$> l2)) with (slot <$> b :: l2).
    rewrite <- fmap_app, <- Hsplit. destruct opened; [by rewrite fmap_app |].
    by rewrite app_nil_r. }
  rewrite (fmap_app _ (closed_bins st)), <- app_assoc, <- Hopen.
  simpl. case_bool_decide; simpl; rewrite !fmap_app; simpl.
  - rewrite <- app_assoc. apply Permutation_app_head. simpl.
    apply Permutation_middle.
  - done.
Qed.

Lemma placement_slots_NoDup job inst st st' :
  Inv accelerators st → placement accelerators job inst st st' →
  NoDup (slot <$> (closed_bins st ++ open_bins st)) →
  NoDup (slot <$> (closed_bins st' ++ open_bins st')).
Proof.
  intros [Hopen Hclosed _] [opened Hperm]%placement_slots Hnodup.
  rewrite Hperm. destruct opened; [| by rewrite app_nil_r].
  apply NoDup_app. split; [done |]. split; [| apply fresh_bins_slots_NoDup].
  intros [g i] (b & Hslot & Hb)%list_elem_of_fmap Hfresh.
  rewrite fresh_bins_slots in Hfresh.
  apply list_elem_of_fmap in Hfresh as (k & [= -> ->] & _).
  injection Hslot as Hidx _.
  rewrite Forall_forall in Hopen, Hclosed.
  apply elem_of_app in Hb as [Hb | Hb].
  - destruct (Hclosed b Hb) as ((_ & Hlt) & _). lia.
  - destruct (Hopen b Hb) as ((_ & Hlt) & _). lia.
Qed.

Lemma pack_loop_slots_NoDup js st st' :
  Inv accelerators st → pack_loop accelerators js st = Ok st' →
  NoDup (slot <$> (closed_bins st ++ open_bins st)) →
  NoDup (slot <$> (closed_bins st' ++ open_bins st')).
Proof.
  revert st. induction js as [|job js IH]; intros st HI; simpl.
  - by intros [= <-].
  - destruct (instance job) as [inst|] eqn:Hjob; [| by apply IH].
    destruct (assign accelerators job inst st) as [st1|e] eqn:Hst1;
      simpl; [| done].
    intros Hst' Hnodup. apply (IH st1); [by eapply assign_Inv | done |].
    eapply placement_slots_NoDup; [done | by apply assign_Ok | done].
Qed.

Lemma close_all_sublist st :
  close_all st `sublist_of` closed_bins st ++ open_bins st.
Proof. unfold close_all. apply sublist_app; [done | apply sublist_filter]. Qed.
End slots.

(** X4: in the schedule no two bins have the same generation and the same
    machine, every bin stands for a machine of the mapping, and so there
    are at most (generations used) times (machines) bins. *)
Theorem one_bin_per_slot accelerators js out :
  schedule_bins accelerators js = Ok out →
  NoDup (slot <$> out) ∧
  Forall (λ b, (qpu b < length accelerators)%nat) out ∧
  (length out ≤ generations_used out * length accelerators)%nat.
Proof.
  intros (st & Hst & HI & ->)%schedule_bins_Ok.
  set (out := sorted_by_index (close_all st)).
  assert (NoDup (slot <$> out)) as Hnodup.
  { unfold out. rewrite sorted_by_index_Permutation.
    eapply sublist_NoDup; [| apply fmap_sublist, close_all_sublist].
    eapply pack_loop_slots_NoDup; [apply Inv_initial | done |].
    simpl. apply fresh_bins_slots_NoDup. }
  assert (Forall (λ b, (qpu b < length accelerators)%nat) out) as Hqpu.
  { apply Forall_forall. intros b Hb.
    destruct (elem_of_schedule _ st b HI Hb)
      as [((Hn & _) & _) | (((Hn & _) & _) & _)];
      apply lookup_lt_Some in Hn; by rewrite length_fmap in Hn. }
  split_and!; [done | done |].
  rewrite <- (length_fmap slot out). unfold generations_used.
  rewrite <- (length_seq (length accelerators) 0), <- length_prod.
  rewrite <- list_cprod_list_prod. apply submseteq_length.
  apply NoDup_submseteq; [done |].
  intros [g i] (b & [= -> ->] & Hb)%list_elem_of_fmap.
  apply list_elem_of_cprod. simpl. split.
  - by apply elem_of_remove_dups, list_elem_of_fmap_2.
  - apply elem_of_seq. rewrite Forall_forall in Hqpu.
    specialize (Hqpu b Hb). lia.
Qed.

Lemma one_bin_per_slot_witness :
  let out := [mkBin 1 false 0 [mkJob "1" (Some (mkCircuit 3))] 0;
              mkBin 1 false 0 [mkJob "2" (Some (mkCircuit 3))] 1;
              mkBin 1 false 1 [mkJob "3" (Some (mkCircuit 3))] 0] in
  NoDup (slot <$> out) ∧
  Forall (λ b, (qpu b < 2)%nat) out ∧
  (length out ≤ generations_used out * 2)%nat.
Proof.
  intros out.
  apply (one_bin_per_slot [("m0"%string, 4); ("m1"%string, 4)]
           (circuits [3; 3; 3]) out).
  reflexivity.
Defined.

(** ** Jobs stay where they were put *)

Section growth.
Variable accelerators : accelerators_t.

(** Where the bins after an iteration come from. *)
Lemma placement_elem job inst st st' x :
  placement accelerators job inst st st' →
  x ∈ closed_bins st' ++ open_bins st' →
  x ∈ closed_bins st ++ open_bins st ++
      fresh_bins accelerators (next_index st) ∨
  ∃ b, b ∈ open_bins st ++ fresh_bins accelerators (next_index st) ∧
       jobs x = jobs b ++ [job] ∧ slot x = slot b.
Proof.
  intros [opened l1 b l2 Hsplit _ _ _ ->].
  assert (∀ y, y ∈ l1 ++ b :: l2 →
               y ∈ open_bins st ++ fresh_bins accelerators (next_index st))
    as Hin.
  { intros y. rewrite <- Hsplit. destruct opened; [done |].
    rewrite elem_of_app. auto. }
  assert (b ∈ l1 ++ b :: l2) as Hb
    by (rewrite elem_of_app, elem_of_cons; auto).
  assert (∀ y, y ∈ l1 ∨ y ∈ l2 →
               y ∈ closed_bins st ++ open_bins st ++
                   fresh_bins accelerators (next_index st)) as Hrest.
  { intros y Hy. rewrite elem_of_app. right. apply Hin.
    rewrite elem_of_app, elem_of_cons. tauto. }
  simpl. case_bool_decide; simpl; intros Hx.
  - apply elem_of_app in Hx as [Hx | Hx].
    + apply elem_of_app in Hx as [Hx | Hx].
      * left. rewrite elem_of_app. auto.
      * apply list_elem_of_singleton in Hx as ->. right. exists b. auto.
    + left. apply Hrest. by apply elem_of_app.
  - apply elem_of_app in Hx as [Hx | Hx].
    + left. rewrite elem_of_app. auto.
    + apply elem_of_app in Hx as [Hx | Hx]; [left; apply Hrest; auto |].
      apply elem_of_cons in Hx as [-> | Hx]; [| left; apply Hrest; auto].
      right. exists b. auto.
Qed.

(** Every bin is still there after an iteration, with the jobs it had
    before any new one. *)
Lemma placement_keep job inst st st' b0 :
  placement accelerators job inst st st' →
  b0 ∈ closed_bins st ++ open_bins st →
  ∃ b', b' ∈ closed_bins st' ++ open_bins st' ∧ slot b' = slot b0 ∧
        jobs b0 `prefix_of` jobs b'.
Proof.
  intros [opened l1 b l2 Hsplit _ _ _ ->] Hb0.
  assert (b0 ∈ closed_bins st ∨ b0 ∈ l1 ∨ b0 = b ∨ b0 ∈ l2) as Hcases.
  { apply elem_of_app in Hb0 as [Hb0 | Hb0]; [by left | right].
    assert (b0 ∈ l1 ++ b :: l2) as Hin.
    { rewrite <- Hsplit. destruct opened; [| done].
      rewrite elem_of_app. auto. }
    by rewrite elem_of_app, elem_of_cons in Hin. }
  simpl.
  destruct Hcases as [Hc | [Hc | [-> | Hc]]].
  - exists b0. split; [| done].
    case_bool_decide; simpl; rewrite !elem_of_app; auto.
  - exists b0. split; [| done].
    case_bool_decide; simpl; rewrite !elem_of_app; auto.
  - case_bool_decide; simpl.
    + exists (set_full (put job inst b)). split; [| split; [done |]].
      * rewrite !elem_of_app, list_elem_of_singleton. auto.
      * simpl. by apply prefix_app_r.
    + exists (put job inst b). split; [| split; [done |]].
      * rewrite !elem_of_app, elem_of_cons. auto.
      * simpl. by apply prefix_app_r.
  - exists b0. split; [| done].
    case_bool_decide; simpl; rewrite !elem_of_app, ?elem_of_cons; auto.
Qed.

Lemma placement_closed job inst st st' :
  placement accelerators job inst st st' →
  closed_bins st `prefix_of` closed_bins st'.
Proof.
  intros [opened l1 b l2 _ _ _ _ ->]. simpl.
  case_bool_decide; simpl; [by apply prefix_app_r | done].
Qed.

Lemma pack_loop_keep js st st' b0 :
  pack_loop accelerators js st = Ok st' →
  b0 ∈ closed_bins st ++ open_bins st →
  ∃ b', b' ∈ closed_bins st' ++ open_bins st' ∧ slot b' = slot b0 ∧
        jobs b0 `prefix_of` jobs b'.
Proof.
  revert st b0. induction js as [|job js IH]; intros st b0; simpl.
  - intros [= <-] Hb0. by exists b0.
  - destruct (instance job) as [inst|] eqn:Hjob; [| apply IH].
    destruct (assign accelerators job inst st) as [st1|e] eqn:Hst1;
      simpl; [| done].
    intros Hst' Hb0. apply assign_Ok in Hst1.
    destruct (placement_keep _ _ _ _ _ Hst1 Hb0) as (b1 & Hb1 & Hs1 & Hp1).
    destruct (IH st1 b1 Hst' Hb1) as (b' & Hb' & Hs' & Hp').
    exists b'. split; [done |]. split; [congruence |]. by etrans.
Qed.

Lemma pack_loop_closed js st st' :
  pack_loop accelerators js st = Ok st' →
  closed_bins st `prefix_of` closed_bins st'.
Proof.
  revert st. induction js as [|job js IH]; intros st; simpl.
  - by intros [= <-].
  - destruct (instance job) as [inst|] eqn:Hjob; [| apply IH].
    destruct (assign accelerators job inst st) as [st1|e] eqn:Hst1;
      simpl; [| done].
    intros Hst'%IH. etrans; [| done].
    by eapply placement_closed, assign_Ok.
Qed.

(** The jobs of a bin are in the order of the job list. *)
Lemma pack_loop_sublist js st st' pre :
  pack_loop accelerators js st = Ok st' →
  Forall (λ b, jobs b `sublist_of` pre) (closed_bins st ++ open_bins st) →
  Forall (λ b, jobs b `sublist_of` pre ++ js)
         (closed_bins st' ++ open_bins st').
Proof.
  revert st pre. induction js as [|job js IH]; intros st pre; simpl.
  - intros [= <-]. by rewrite app_nil_r.
  - rewrite (cons_middle job pre js), app_assoc.
    destruct (instance job) as [inst|] eqn:Hjob.
    + destruct (assign accelerators job inst st) as [st1|e] eqn:Hst1;
        simpl; [| done].
      intros Hst' Hall. apply (IH st1 _ Hst').
      apply assign_Ok in Hst1. rewrite Forall_forall in Hall.
      assert (∀ b, b ∈ closed_bins st ++ open_bins st ++
                       fresh_bins accelerators (next_index st) →
                   jobs b `sublist_of` pre) as Hall'.
      { intros b. rewrite app_assoc, elem_of_app. intros [Hb | Hb]; [auto |].
        apply elem_of_fresh_bins in Hb as (i & cap & _ & ->).
        apply sublist_nil_l. }
      apply Forall_forall. intros x Hx.
      destruct (placement_elem _ _ _ _ _ Hst1 Hx)
        as [Hold | (b & Hb & -> & _)].
      * by apply sublist_inserts_r, Hall'.
      * apply sublist_app; [| done]. apply Hall'.
        rewrite elem_of_app. auto.
    + intros Hst' Hall. apply (IH st _ Hst').
      eapply Forall_impl; [done |]. intros b Hb.
      by apply sublist_inserts_r.
Qed.
End growth.

(** X5: in every bin of the schedule the jobs are in the order in which
    they come in the job list. *)
Theorem arrival_order_in_bins accelerators js out :
  schedule_bins accelerators js = Ok out →
  Forall (λ b, jobs b `sublist_of` new_jobs js) out.
Proof.
  intros (st & Hst & _ & ->)%schedule_bins_Ok.
  apply (pack_loop_sublist _ _ _ _ []) in Hst.
  - rewrite app_nil_l, Forall_forall in Hst.
    apply Forall_forall. intros b Hb.
    rewrite sorted_by_index_Permutation in Hb. apply Hst.
    eapply elem_of_sublist; [done | apply close_all_sublist].
  - apply Forall_forall. intros b Hb. simpl in Hb.
    apply elem_of_fresh_bins in Hb as (i & cap & _ & ->).
    apply sublist_nil_l.
Qed.

Lemma arrival_order_in_bins_witness :
  Forall (λ b, jobs b `sublist_of` new_jobs (circuits [3; 3; 1]))
    [mkBin 0 true 0 [mkJob "1" (Some (mkCircuit 3));
                     mkJob "3" (Some (mkCircuit 1))] 0;
     mkBin 1 false 1 [mkJob "2" (Some (mkCircuit 3))] 0].
Proof.
  apply (arrival_order_in_bins [("a"%string, 4)] (circuits [3; 3; 1])).
  reflexivity.
Defined.

(** X6: jobs appended to the job list leave the earlier jobs where they
    were: every bin of the schedule of a list is, in the schedule of a
    longer list, a bin of the same generation and machine that starts with
    the same jobs, and a bin that was full is there unchanged. *)
Theorem earlier_jobs_stay accelerators pre post out1 out2 :
  schedule_bins accelerators pre = Ok out1 →
  schedule_bins accelerators (pre ++ post) = Ok out2 →
  ∀ b1, b1 ∈ out1 →
    (∃ b2, b2 ∈ out2 ∧ slot b2 = slot b1 ∧ jobs b1 `prefix_of` jobs b2) ∧
    (full b1 = true → b1 ∈ out2).
Proof.
  intros (st1 & Hst1 & HI1 & ->)%schedule_bins_Ok
         (st2 & Hst2 & HI2 & ->)%schedule_bins_Ok b1 Hb1.
  rewrite new_jobs_app, pack_loop_app, Hst1 in Hst2. simpl in Hst2.
  pose proof (elem_of_schedule _ st1 b1 HI1 Hb1) as Hcase.
  rewrite sorted_by_index_Permutation in Hb1.
  split.
  - destruct (pack_loop_keep _ _ _ _ b1 Hst2) as (b2 & Hb2 & Hslot & Hpre).
    { eapply elem_of_sublist; [done | apply close_all_sublist]. }
    exists b2. split; [| done].
    assert (0 < length (jobs b2))%nat as Hlen.
    { apply prefix_length in Hpre.
      destruct Hcase as [(_ & _ & _ & Hlen) | [_ Hlen]]; lia. }
    rewrite sorted_by_index_Permutation. unfold close_all.
    rewrite elem_of_app, list_elem_of_filter.
    apply elem_of_app in Hb2 as [Hb2 | Hb2]; auto.
  - intros Hfull. rewrite sorted_by_index_Permutation. unfold close_all.
    apply elem_of_app. left.
    destruct Hcase as [_ | [(_ & Hopen & _) _]]; [| congruence].
    unfold close_all in Hb1. apply elem_of_app in Hb1 as [Hb1 | Hb1].
    + eapply elem_of_prefix; [done |]. by eapply pack_loop_closed.
    + apply list_elem_of_filter in Hb1 as [_ Hb1].
      destruct HI1 as [Hopen _ _]. rewrite Forall_forall in Hopen.
      destruct (Hopen b1 Hb1) as (_ & Hf & _). congruence.
Qed.

Lemma earlier_jobs_stay_witness :
  let b1 := mkBin 1 false 0 [mkJob "1" (Some (mkCircuit 3))] 0 in
  (∃ b2, b2 ∈ [mkBin 0 true 0 [mkJob "1" (Some (mkCircuit 3));
                               mkJob "3" (Some (mkCircuit 1))] 0;
               mkBin 1 false 1 [mkJob "2" (Some (mkCircuit 3))] 0] ∧
         slot b2 = slot b1 ∧ jobs b1 `prefix_of` jobs b2) ∧
  (full b1 = true →
   b1 ∈ [mkBin 0 true 0 [mkJob "1" (Some (mkCircuit 3));
                         mkJob "3" (Some (mkCircuit 1))] 0;
         mkBin 1 false 1 [mkJob "2" (Some (mkCircuit 3))] 0]).
Proof.
  intros b1.
  apply (earlier_jobs_stay [("a"%string, 4)] (circuits [3])
           (circuits [3; 1]) [b1]).
  - reflexivity.
  - reflexivity.
  - apply list_elem_of_here.
Defined.

(** ** Jobs and the machines they are put on *)

Lemma sumZ_elem_of {A} (f : A → Z) l x :
  Forall (λ y, 0 ≤ f y) l → x ∈ l → f x ≤ sumZ f l.
Proof.
  unfold sumZ. induction 1 as [|y l Hy Hl IH]; [by intros ?%elem_of_nil |].
  assert (0 ≤ foldr (λ z acc, f z + acc) 0 l) as Hsum.
  { clear IH. induction Hl as [|z l Hz _ IH]; simpl; lia. }
  intros [-> | Hx]%elem_of_cons; simpl; [lia |]. specialize (IH Hx). lia.
Qed.

Lemma schedule_jobs_nonneg accelerators js out b :
  (∀ inst, Some inst ∈ js → 0 ≤ num_qubits inst) →
  schedule_bins accelerators js = Ok out → b ∈ out →
  Forall (λ job, 0 ≤ job_qubits job) (jobs b).
Proof.
  intros Hnonneg Hout Hb. apply Forall_forall. intros job Hjob.
  assert (job ∈ out ≫= jobs) as Hin by (apply list_elem_of_bind; eauto).
  rewrite (schedule_jobs _ _ _ Hout) in Hin.
  apply list_elem_of_filter in Hin as [[inst Hinst] Hin].
  unfold job_qubits. rewrite Hinst. simpl. apply Hnonneg.
  apply new_jobs_instance. by exists job.
Qed.

(** X7: when the jobs need a nonnegative number of qubits, every job of
    the schedule is on a machine with at least as many qubits as the job
    needs. *)
Theorem job_fits_machine accelerators js out :
  (∀ inst, Some inst ∈ js → 0 ≤ num_qubits inst) →
  schedule_bins accelerators js = Ok out →
  ∀ b job cap, b ∈ out → job ∈ jobs b →
    accelerators.*2 !! qpu b = Some cap → job_qubits job ≤ cap.
Proof.
  intros Hnonneg Hout b job cap Hb Hjob Hcap.
  destruct (schedule_bin_free _ _ _ _ Hout Hb) as (Hnom & Hfree).
  assert (cap = capacity b + bin_load b) as -> by congruence.
  pose proof (schedule_jobs_nonneg _ _ _ _ Hnonneg Hout Hb) as Hall.
  pose proof (sumZ_elem_of job_qubits _ _ Hall Hjob) as Hle.
  unfold bin_load. lia.
Qed.

Lemma job_fits_machine_witness :
  job_qubits (mkJob "2" (Some (mkCircuit 2))) ≤ 2.
Proof.
  apply (job_fits_machine [("a"%string, 4); ("b"%string, 2)]
           (circuits [3; 2])
           [mkBin 0 true 0 [mkJob "2" (Some (mkCircuit 2))] 1;
            mkBin 1 false 0 [mkJob "1" (Some (mkCircuit 3))] 0]
        ) with (b := mkBin 0 true 0 [mkJob "2" (Some (mkCircuit 2))] 1).
  - intros inst Hin. apply list_elem_of_In in Hin. simpl in Hin.
    destruct Hin as [[= <-] | [[= <-] | []]]; simpl; lia.
  - reflexivity.
  - apply list_elem_of_here.
  - apply list_elem_of_here.
  - reflexivity.
Defined.

(** ** Everything on the first machine *)

Lemma pack_loop_first_bin accelerators js c placed tl :
  Forall (λ job, 0 ≤ job_qubits job) js →
  sumZ job_qubits js < c →
  pack_loop accelerators js
    (mkState (mkBin c false 0 placed 0 :: tl) [] 1) =
  Ok (mkState (mkBin (c - sumZ job_qubits js) false 0
                     (placed ++ filter has_instance js) 0 :: tl) [] 1).
Proof.
  intros Hall. revert c placed.
  induction Hall as [|job js Hjob Hjs IH]; intros c placed Hsum.
  - simpl. change (sumZ job_qubits []) with 0.
    by rewrite Z.sub_0_r, app_nil_r.
  - change (sumZ job_qubits (job :: js))
      with (job_qubits job + sumZ job_qubits js) in *.
    assert (0 ≤ sumZ job_qubits js) as Hrest.
    { clear -Hjs. unfold sumZ. induction Hjs; simpl; lia. }
    rewrite filter_cons. simpl.
    destruct (instance job) as [inst|] eqn:Hinst.
    + assert (job_qubits job = num_qubits inst) as Hq
        by (unfold job_qubits; by rewrite Hinst).
      rewrite Hq in *.
      rewrite decide_True by (unfold has_instance; by rewrite Hinst).
      unfold assign. simpl.
      rewrite bool_decide_true by lia. unfold add_job. simpl.
      rewrite bool_decide_false by lia. simpl. unfold put. simpl.
      rewrite IH by lia. rewrite <- app_assoc. simpl.
      by replace (c - num_qubits inst - sumZ job_qubits js)
        with (c - (num_qubits inst + sumZ job_qubits js)) by lia.
    + assert (job_qubits job = 0) as Hq
        by (unfold job_qubits; by rewrite Hinst).
      rewrite Hq in *.
      rewrite decide_False
        by (unfold has_instance; rewrite Hinst; by intros [? ?]).
      rewrite IH by lia.
      by replace (c - (0 + sumZ job_qubits js))
        with (c - sumZ job_qubits js) by lia.
Qed.

Lemma imap_no_jobs (f : nat → Z → Bin) (l : list Z) :
  (∀ i c, jobs (f i c) = []) →
  filter (λ b, (0 < length (jobs b))%nat) (imap f l) = [].
Proof.
  revert f. induction l as [|c l IH]; intros f Hf; [done |].
  rewrite imap_cons, filter_cons, decide_False, IH; [done | |].
  - intros i c'. apply Hf.
  - rewrite Hf. simpl. lia.
Qed.

(** X8: when the jobs need a nonnegative number of qubits and together
    less than the first machine has, the schedule is one bin: all the jobs
    with a circuit, in the order of the list, on the first machine in
    generation 0. *)
Theorem all_on_first_machine m cap rest js :
  (∀ inst, Some inst ∈ js → 0 ≤ num_qubits inst) →
  total_demand js < cap → (0 < job_count js)%nat →
  schedule_bins ((m, cap) :: rest) js =
    Ok [mkBin (cap - total_demand js) false 0
              (filter has_instance (new_jobs js)) 0].
Proof.
  intros Hnonneg Hsum Hpos. unfold schedule_bins, initial_state, fresh_bins.
  rewrite fmap_cons, imap_cons. simpl.
  rewrite pack_loop_first_bin.
  - rewrite sumZ_new_jobs. simpl. unfold close_all. simpl.
    rewrite filter_cons. simpl. rewrite decide_True by done.
    by rewrite imap_no_jobs.
  - apply Forall_forall. intros job Hjob. unfold job_qubits.
    destruct (instance job) as [inst|] eqn:Hinst; simpl; [| done].
    apply Hnonneg, new_jobs_instance. by exists job.
  - by rewrite sumZ_new_jobs.
Qed.

Lemma all_on_first_machine_witness :
  schedule_bins [("a"%string, 8); ("b"%string, 2)]
    [Some (mkCircuit 3); None; Some (mkCircuit 2)] =
  Ok [mkBin 3 false 0 [mkJob "1" (Some (mkCircuit 3));
                       mkJob "3" (Some (mkCircuit 2))] 0].
Proof.
  apply (all_on_first_machine "a" 8 [("b"%string, 2)]
           [Some (mkCircuit 3); None; Some (mkCircuit 2)]).
  - intros inst Hin. apply list_elem_of_In in Hin. simpl in Hin.
    destruct Hin as [[= <-] | [[=] | [[= <-] | []]]]; simpl; lia.
  - reflexivity.
  - vm_compute. lia.
Defined.

(** ** The records of the schedule *)

Section records.
Context `{Time T}.
Variable accelerators : accelerators_t.

Lemma job_generations_ascending bins :
  ascending bins → StronglySorted le (job_generations bins).
Proof.
  unfold ascending, job_generations.
  induction bins as [|b bins IH]; [constructor |].
  rewrite fmap_cons, StronglySorted_cons, bind_cons. intros [Hb Hbins].
  apply StronglySorted_app. split_and!; [| | by apply IH].
  - intros g1 g2 [-> _]%elem_of_replicate
           (b2 & [-> _]%elem_of_replicate & Hb2)%list_elem_of_bind.
    rewrite Forall_forall in Hb. by apply Hb, list_elem_of_fmap_2.
  - induction (length (jobs b)); simpl; constructor; [done |].
    apply Forall_forall. by intros g [-> _]%elem_of_replicate.
Qed.

Lemma bin_records_Ok b (rs : list (JobResultInfo T)) :
  bin_records accelerators b = Ok rs →
  start_time <$> rs =
    replicate (length (jobs b)) (t_of_Z (Z.of_nat (index b))) ∧
  ∀ r, r ∈ rs →
    ∃ job m, job ∈ jobs b ∧ accelerators.*1 !! qpu b = Some m ∧
             r = mkInfo (name job) m (t_of_Z (Z.of_nat (index b)))
                        (t_of_Z (-1)).
Proof.
  unfold bin_records. destruct (accelerators.*1 !! qpu b) as [m|].
  - intros [= <-]. split.
    + rewrite <- list_fmap_compose. simpl.
      induction (jobs b) as [|job l IH]; simpl; by f_equal.
    + intros r (job & -> & Hjob)%list_elem_of_fmap. by exists job, m.
  - destruct (jobs b); [| done]. intros [= <-].
    split; [done |]. by intros r ?%elem_of_nil.
Qed.

Lemma combined_jobs_Ok_inv bins (rs : list (JobResultInfo T)) :
  combined_jobs accelerators bins = Ok rs →
  start_time <$> rs =
    (λ g, t_of_Z (Z.of_nat g)) <$> job_generations bins ∧
  ∀ r, r ∈ rs →
    ∃ b job m, b ∈ bins ∧ job ∈ jobs b ∧
               accelerators.*1 !! qpu b = Some m ∧
               r = mkInfo (name job) m (t_of_Z (Z.of_nat (index b)))
                          (t_of_Z (-1)).
Proof.
  revert rs. induction bins as [|b bins IH]; intros rs; simpl.
  - intros [= <-]. split; [done |]. by intros r ?%elem_of_nil.
  - destruct (bin_records accelerators b) as [r1|e] eqn:Hb; simpl; [| done].
    destruct (combined_jobs accelerators bins) as [r2|e] eqn:Hbins;
      simpl; [| done].
    intros [= <-]. apply bin_records_Ok in Hb as [Hs1 Hr1].
    destruct (IH r2 eq_refl) as [Hs2 Hr2]. split.
    + unfold job_generations in *. rewrite !fmap_app, Hs1, Hs2.
      f_equal. by rewrite fmap_replicate.
    + intros r [Hr | Hr]%elem_of_app.
      * destruct (Hr1 r Hr) as (job & m & Hjob & Hm & ->).
        exists b, job, m. split; [apply list_elem_of_here | done].
      * destruct (Hr2 r Hr) as (b' & job & m & Hb' & Hjob & Hm & ->).
        exists b', job, m. split; [by apply list_elem_of_further | done].
Qed.
End records.

(** X9: the records of the schedule are one for each job with a circuit;
    each is a job of a bin of the schedule with the name of the bin's
    machine, the bin's generation as start time and -1 as completion time;
    and the start times follow a list of generations that never
    decreases. *)
Theorem records_of_schedule `{Time T} accelerators js out
    (rs : list (JobResultInfo T)) :
  schedule_bins accelerators js = Ok out →
  combined_jobs accelerators out = Ok rs →
  length rs = job_count js ∧
  (∀ r, r ∈ rs →
     ∃ b job m, b ∈ out ∧ job ∈ jobs b ∧
                accelerators.*1 !! qpu b = Some m ∧
                r = mkInfo (name job) m (t_of_Z (Z.of_nat (index b)))
                           (t_of_Z (-1))) ∧
  ∃ gens, StronglySorted le gens ∧
          start_time <$> rs = (λ g, t_of_Z (Z.of_nat g)) <$> gens.
Proof.
  intros Hout Hrs.
  destruct (combined_jobs_Ok_inv accelerators out rs Hrs) as [Hstart Hall].
  split_and!; [| done |].
  - rewrite <- (length_fmap info_name).
    rewrite (combined_jobs_names accelerators _ _ Hrs), length_fmap.
    unfold job_count. by rewrite (schedule_jobs _ _ _ Hout).
  - exists (job_generations out). split; [| done].
    apply job_generations_ascending.
    apply schedule_bins_Ok in Hout as (st & _ & _ & ->).
    apply sorted_by_index_ascending.
Qed.

Lemma records_of_schedule_witness :
  let out := [mkBin 0 true 0 [mkJob "1" (Some (mkCircuit 3));
                              mkJob "3" (Some (mkCircuit 1))] 0;
              mkBin 1 false 1 [mkJob "2" (Some (mkCircuit 3))] 0] in
  let rs := [mkInfo "1" "a"%string 0 (-1); mkInfo "3" "a"%string 0 (-1);
             mkInfo "2" "a"%string 1 (-1)] in
  length rs = 3%nat ∧
  (∀ r, r ∈ rs →
     ∃ b job m,
       b ∈ out ∧ job ∈ jobs b ∧ [("a"%string, 4)].*1 !! qpu b = Some m ∧
       r = mkInfo (name job) m (Z.of_nat (index b)) (-1)) ∧
  ∃ gens, StronglySorted le gens ∧
          start_time <$> rs = (λ g, Z.of_nat g) <$> gens.
Proof.
  intros out rs.
  exact (records_of_schedule (T := Z) [("a"%string, 4)]
           (circuits [3; 3; 1]) out rs eq_refl eq_refl).
Defined.

(** ** The keys of the time matrices *)

(** X10: the job keys of the time matrices are the synthetic ["0"]
    followed by the identifiers the packer gives the jobs, all different;
    every record of the schedule has a job key other than ["0"] and a
    machine of the mapping, so that the evaluation only asks for keys of
    the matrices. *)
Theorem matrix_keys `{Time T} accelerators js :
  NoDup (lp_jobs js) ∧
  tail (lp_jobs js) = name <$> new_jobs js ∧
  ∀ out (rs : list (JobResultInfo T)),
    schedule_bins accelerators js = Ok out →
    combined_jobs accelerators out = Ok rs →
    Forall (λ r, info_name r ∈ tail (lp_jobs js) ∧
                 info_name r ≠ "0"%string ∧
                 machine r ∈ machines accelerators) rs.
Proof.
  assert ("0"%string ∉ name <$> new_jobs js) as Hzero.
  { intros (job & Hname & (i & c & _ & ->)%new_jobs_elem_of)%list_elem_of_fmap.
    simpl in Hname. change "0"%string with (pretty 0%nat) in Hname.
    apply (inj pretty) in Hname. lia. }
  split_and!.
  - unfold lp_jobs. fold (tail (lp_jobs js)).
    change (NoDup ("0"%string :: tail (lp_jobs js))).
    rewrite lp_jobs_names. constructor; [done | apply new_jobs_NoDup].
  - apply lp_jobs_names.
  - intros out rs Hout Hrs. rewrite lp_jobs_names.
    destruct (combined_jobs_Ok_inv accelerators out rs Hrs) as [_ Hall].
    pose proof (schedule_jobs _ _ _ Hout) as Hperm.
    apply Forall_forall. intros r Hr.
    destruct (Hall r Hr) as (b & job & m & Hb & Hjob & Hm & ->). simpl.
    assert (name job ∈ name <$> new_jobs js) as Hname.
    { assert (job ∈ out ≫= jobs) as Hin
        by (apply list_elem_of_bind; eauto).
      rewrite Hperm in Hin. apply list_elem_of_filter in Hin as [_ Hin].
      by apply list_elem_of_fmap_2. }
    split_and!; [done | | by eapply list_elem_of_lookup_2].
    intros Heq. by rewrite Heq in Hname.
Qed.

Lemma matrix_keys_witness :
  Forall (λ r : JobResultInfo Z,
            info_name r ∈ tail (lp_jobs (circuits [3; 3; 1])) ∧
            info_name r ≠ "0"%string ∧
            machine r ∈ machines [("a"%string, 4)])
    [mkInfo "1" "a"%string 0 (-1); mkInfo "3" "a"%string 0 (-1);
     mkInfo "2" "a"%string 1 (-1)].
Proof.
  destruct (matrix_keys (T := Z) [("a"%string, 4)] (circuits [3; 3; 1]))
    as (_ & _ & Hkeys).
  apply (Hkeys [mkBin 0 true 0 [mkJob "1" (Some (mkCircuit 3));
                                mkJob "3" (Some (mkCircuit 1))] 0;
                mkBin 1 false 1 [mkJob "2" (Some (mkCircuit 3))] 0]);
    reflexivity.
Defined.

(** ** Jobs from an experiment *)

Section experiment_jobs.
Context {Circuit Coefficient Observable Counts UUID : Type}.
Variable num_cregs : Circuit → nat.

Implicit Types
  (e : @Experiment.Experiment Circuit Coefficient Observable Counts UUID)
  (js : list (@Experiment.CircuitJob Circuit Coefficient Observable
                                     Counts UUID))
  (cs : list Circuit).

Lemma build_jobs_Throw e idx cs :
  (idx ≤ length (Experiment.coefficients e))%nat →
  (length (Experiment.coefficients e) < idx + length cs)%nat →
  Experiment.build_jobs num_cregs e idx cs =
  Experiment.Throw Experiment.IndexError.
Proof.
  revert idx. induction cs as [|c cs IH]; intros idx Hidx Hlen; simpl in *.
  - lia.
  - destruct (Experiment.coefficients e !! idx) as [co|] eqn:Hco; [| done].
    apply lookup_lt_Some in Hco. rewrite IH; [done | lia | lia].
Qed.

Lemma build_jobs_Return e idx cs :
  (idx + length cs ≤ length (Experiment.coefficients e))%nat →
  ∃ js, Experiment.build_jobs num_cregs e idx cs = Experiment.Return js.
Proof.
  revert idx. induction cs as [|c cs IH]; intros idx Hlen; simpl in *.
  - by eexists.
  - destruct (lookup_lt_is_Some_2 (Experiment.coefficients e) idx)
      as [co ->]; [lia |].
    destruct (IH (S idx)) as [js ->]; [lia |]. by eexists.
Qed.

Lemma build_jobs_fields e idx cs js :
  Experiment.build_jobs num_cregs e idx cs = Experiment.Return js →
  Experiment.instance <$> js = Some <$> cs ∧
  Experiment.index <$> js = seq idx (length cs) ∧
  Experiment.coefficient <$> js =
    Some <$> take (length cs) (drop idx (Experiment.coefficients e)) ∧
  Experiment.cregs <$> js = num_cregs <$> cs ∧
  Forall (Experiment.copied e) js.
Proof.
  revert idx js. induction cs as [|c cs IH]; intros idx js; simpl.
  - intros [= <-]. by split_and!.
  - destruct (Experiment.coefficients e !! idx) as [co|] eqn:Hco; [| done].
    destruct (Experiment.build_jobs num_cregs e (S idx) cs)
      as [js'|x] eqn:Hrest; [| done].
    intros [= <-]. destruct (IH (S idx) js' Hrest)
      as (Hinst & Hidx & Hcoef & Hcregs & Hcopied).
    split_and!.
    + by rewrite fmap_cons, Hinst.
    + by rewrite fmap_cons, Hidx.
    + by rewrite fmap_cons, Hcoef, (drop_S _ _ _ Hco).
    + by rewrite fmap_cons, Hcregs.
    + constructor; [| done]. by repeat split.
Qed.

(** X11: [jobs_from_experiment] raises a [TypeError] exactly when the
    experiment has no circuit list, an [IndexError] exactly when it has
    more circuits than coefficients, and gives the jobs otherwise;
    coefficients beyond the circuits do no harm. *)
Theorem jobs_from_experiment_outcome e :
  (Experiment.jobs_from_experiment num_cregs e =
     Experiment.Throw Experiment.TypeError ↔
   Experiment.circuits e = None) ∧
  (Experiment.jobs_from_experiment num_cregs e =
     Experiment.Throw Experiment.IndexError ↔
   ∃ cs, Experiment.circuits e = Some cs ∧
         (length (Experiment.coefficients e) < length cs)%nat) ∧
  ((∃ js, Experiment.jobs_from_experiment num_cregs e =
            Experiment.Return js) ↔
   ∃ cs, Experiment.circuits e = Some cs ∧
         (length cs ≤ length (Experiment.coefficients e))%nat).
Proof.
  unfold Experiment.jobs_from_experiment.
  destruct (Experiment.circuits e) as [cs|] eqn:Hcs.
  - destruct (decide (length cs ≤ length (Experiment.coefficients e))%nat)
      as [Hle|Hgt].
    + destruct (build_jobs_Return e 0 cs) as [js Hjs]; [done |].
      rewrite Hjs. split_and!.
      * split; [done | done].
      * split; [done |]. intros (cs' & [= <-] & Hlt). lia.
      * split; [by exists cs | by exists js].
    + rewrite build_jobs_Throw by lia. split_and!.
      * split; [done | done].
      * split; [| done]. intros _. exists cs. split; [done | lia].
      * split; [by intros [js ?] |]. intros (cs' & [= <-] & Hle). lia.
  - split_and!.
    + done.
    + split; [done |]. by intros (cs & ? & _).
    + split; [by intros [js ?] | by intros (cs & ? & _)].
Qed.

(** X12: the jobs [jobs_from_experiment] gives are one for each circuit,
    in order: the job at position [k] has index [k], the circuit and the
    coefficient at position [k] and the number of classical registers of
    that circuit; shots, observables, partition label and UUID are those
    of the experiment and there are no result counts. *)
Theorem jobs_from_experiment_fields e js :
  Experiment.jobs_from_experiment num_cregs e = Experiment.Return js →
  ∃ cs, Experiment.circuits e = Some cs ∧
        Experiment.instance <$> js = Some <$> cs ∧
        Experiment.index <$> js = seq 0 (length cs) ∧
        Experiment.coefficient <$> js =
          Some <$> take (length cs) (Experiment.coefficients e) ∧
        Experiment.cregs <$> js = num_cregs <$> cs ∧
        Forall (Experiment.copied e) js.
Proof.
  unfold Experiment.jobs_from_experiment.
  destruct (Experiment.circuits e) as [cs|]; [| done].
  intros Hjs. exists cs. split; [done |].
  by apply build_jobs_fields in Hjs.
Qed.
End experiment_jobs.

Lemma jobs_from_experiment_fields_witness :
  let e := Experiment.mkExperiment (Some [2%nat; 5%nat]) ["a"; "b"; "c"]%string
             1024 tt "p"%string (None : option (list unit)) 7%nat in
  let job k c co :=
    Experiment.mkCircuitJob (Some co) c k (Some c) 1024 tt "p"%string
                            (None : option unit) 7%nat in
  let js := [job 0%nat 2%nat "a"%string; job 1%nat 5%nat "b"%string] in
  ∃ cs, Experiment.circuits e = Some cs ∧
        Experiment.instance <$> js = Some <$> cs ∧
        Experiment.index <$> js = seq 0 (length cs) ∧
        Experiment.coefficient <$> js =
          Some <$> take (length cs) (Experiment.coefficients e) ∧
        Experiment.cregs <$> js = id <$> cs ∧
        Forall (Experiment.copied e) js.
Proof.
  intros e job js.
  apply (jobs_from_experiment_fields id e js). reflexivity.
Defined.
